(** * QuSmoke: the quantum CBOW notebook, [examples/mindspore_qnn_for_nlp.ipynb]

    A shallow embedding of the helper functions of the notebook
    ([GenerateWordDictAndSample], [GenerateEncoderCircuit],
    [GenerateTrainData], [GenerateAnsatzCircuit],
    [GenerateEmbeddingHamiltonian], [QEmbedding]) together with the Python
    built-ins they call, and the properties of them that the design
    document states.

    Conventions.
    - A Python [str] is a list of characters ([list ascii]: code points
      below 256); a string literal is written [lit "..."].
    - A Python [int] is a [Z]; list positions and word ids, which come from
      [enumerate], are [nat].
    - A Python exception is [None] in the [option] monad.
    - A [dict] is a [gmap], a [set] a [gset].
    - A float is kept as the expression that makes it: [PiTimes k] is
      [k * np.pi], and the weight [1.0] is the rational [1]. *)

From Stdlib Require Import ZArith QArith Ascii String DecimalString DecimalZ.
From stdpp Require Import base option list list_numbers sorting gmap strings.

Local Open Scope Z_scope.

(** ** Python strings *)

Module Py.

Abbreviation str := (list ascii).

Definition lit (s : string) : str := list_ascii_of_string s.

(** [c.isspace()] for a code point below 256. *)
Definition is_space (c : ascii) : bool :=
  let n := nat_of_ascii c in
  ((9 <=? n)%nat && (n <=? 13)%nat) || ((28 <=? n)%nat && (n <=? 32)%nat)
  || (n =? 133)%nat || (n =? 160)%nat.

(** [s.split()]: the maximal runs of characters that are not whitespace.
    [word] is the run being read. *)
Fixpoint split_from (word : str) (s : str) : list str :=
  match s with
  | [] => match word with [] => [] | _ => [word] end
  | c :: s' =>
      if is_space c
      then match word with
           | [] => split_from [] s'
           | _ => word :: split_from [] s'
           end
      else split_from (word ++ [c]) s'
  end.

Definition split (s : str) : list str := split_from [] s.

Fixpoint lstrip (s : str) : str :=
  match s with
  | c :: s' => if is_space c then lstrip s' else s
  | [] => []
  end.

(** [s.strip()] *)
Definition strip (s : str) : str := rev (lstrip (rev (lstrip s))).

(** [s.ljust(width, fill)]: never truncates. *)
Definition ljust (s : str) (width : Z) (fill : ascii) : str :=
  s ++ replicate (Z.to_nat (width - Z.of_nat (length s))) fill.

(** [str(z)] *)
Definition str_of_int (z : Z) : str :=
  lit (NilEmpty.string_of_int (Z.to_int z)).

(** The binary digits of a positive number, least significant first. *)
Fixpoint bits_le (p : positive) : list bool :=
  match p with
  | xH => [true]
  | xO p' => false :: bits_le p'
  | xI p' => true :: bits_le p'
  end.

Definition bit_char (b : bool) : ascii := if b then "1"%char else "0"%char.

(** The digits of [bin(z)] after the ["0b"] prefix, most significant first. *)
Definition bin_digits (z : Z) : str :=
  match z with
  | Z0 => ["0"%char]
  | Zpos p | Zneg p => rev (bit_char <$> bits_le p)
  end.

(** [bin(z)] *)
Definition bin (z : Z) : str :=
  (if z <? 0 then lit "-" else []) ++ lit "0b" ++ bin_digits z.

(** [int(c)] for a one-character string [c]; [ValueError] when it is not
    a digit. *)
Definition int_of_char (c : ascii) : option Z :=
  let n := nat_of_ascii c in
  if ((48 <=? n)%nat && (n <=? 57)%nat)%bool
  then Some (Z.of_nat (n - 48)) else None.

(** ** Python sequences *)

Section Sequences.
Context {A : Type}.

(** [l[i]], [IndexError] out of range. *)
Definition getitem (l : list A) (i : Z) : option A :=
  let len := Z.of_nat (length l) in
  let i' := if i <? 0 then i + len else i in
  if ((0 <=? i') && (i' <? len))%bool then l !! Z.to_nat i' else None.

(** How a slice bound is clipped when the step is positive. *)
Definition clip_fwd (len i : Z) : Z :=
  if i <? 0 then Z.max 0 (i + len) else Z.min i len.

(** How a slice bound is clipped when the step is negative. *)
Definition clip_bwd (len i : Z) : Z :=
  if i <? 0 then Z.max (-1) (i + len) else Z.min i (len - 1).

(** [l[start:stop]] *)
Definition slice (l : list A) (start stop : Z) : list A :=
  let len := Z.of_nat (length l) in
  let a := clip_fwd len start in
  let b := clip_fwd len stop in
  take (Z.to_nat (b - a)) (drop (Z.to_nat a) l).

(** [l[start:stop:-1]]: the items at [start, start-1, ..., stop+1]. *)
Definition slice_rev (l : list A) (start stop : Z) : list A :=
  let len := Z.of_nat (length l) in
  let a := clip_bwd len start in
  let b := clip_bwd len stop in
  rev (take (Z.to_nat (a - b)) (drop (Z.to_nat (b + 1)) l)).

(** [enumerate(l)] *)
Definition enumerate (l : list A) : list (nat * A) :=
  imap (λ i x, (i, x)) l.

(** [max(l)], [ValueError] on an empty sequence. *)
Definition max_of (l : list nat) : option nat :=
  match l with
  | [] => None
  | x :: l' => Some (foldl Nat.max x l')
  end.
End Sequences.

(** [range(a, b)] *)
Definition range (a b : Z) : list Z := seqZ a (b - a).

(** [range(a, b, step)] for a positive [step]. *)
Definition range_step (a b step : Z) : list Z :=
  (λ k, a + step * k) <$> seqZ 0 (if a <? b then (b - a - 1) / step + 1 else 0).

(** A [for] loop whose body may raise: the state is threaded through the
    items in order, and the first exception ends the loop. *)
Fixpoint for_each {A S : Type} (xs : list A) (body : A → S → option S)
    (s : S) : option S :=
  match xs with
  | [] => Some s
  | x :: xs' => body x s ≫= for_each xs' body
  end.

End Py.

Import Py.

(** ** Data preprocessing *)

(** The order of [list.sort()] on strings: lexicographic by code point. *)
Definition str_le (s t : str) : Prop :=
  String.le (string_of_list_ascii s) (string_of_list_ascii t).

Global Instance str_le_dec : RelDecision str_le.
Proof. intros s t. unfold str_le. apply _. Defined.

(** [list(set(l))] followed by [.sort()]: the order in which a set is
    listed is not specified, the sort makes the result independent of it. *)
Definition sorted_set (l : list str) : list str :=
  merge_sort str_le (elements (list_to_set l : gset str)).

(** [{w: i for i, w in enumerate(ws)}] *)
Definition dict_of_enumerate (ws : list str) : gmap str nat :=
  foldl (λ d iw, <[iw.2 := iw.1]> d) ∅ (enumerate ws).

(** A training sample [[around, center]]. *)
Abbreviation sample_t := (list str * str)%type.

(** The body of the inner loop of [GenerateWordDictAndSample]. *)
Definition around_step (all_words : list str) (window index : Z)
    (i : Z) (around : list str) : option (list str) :=
  if decide (i ≠ index + window)
  then w ← getitem all_words i; Some (around ++ [w])
  else Some around.

(** The body of its outer loop. *)
Definition sampling_step (all_words : list str) (window : Z)
    (item : nat * str) (sampling : list sample_t) : option (list sample_t) :=
  let index := Z.of_nat item.1 in
  around ← for_each (range index (index + 2 * window + 1))
                    (around_step all_words window index) [];
  center ← getitem all_words (index + window);
  Some (sampling ++ [(around, center)]).

Definition GenerateWordDictAndSample (corpus : str) (window : Z)
    : option (gmap str nat * list sample_t) :=
  let all_words := split corpus in
  let word_set := sorted_set all_words in
  let word_dict := dict_of_enumerate word_set in
  sampling ← for_each (enumerate (slice all_words window (- window)))
                      (sampling_step all_words window) [];
  Some (word_dict, sampling).

(** ** Circuits *)

(** The simulator's modules [gates] ([RX], [RY], [X], [H]) and [circuit]
    ([Circuit], [UN]) are not among the sources at hand; what the notebook
    uses of them is modelled here, after the circuits that it prints
    ([RX(e_0)<0>], [X<1, 0>]): a circuit is the sequence of its gates. *)

(** Modelled from the spec: the parameter of a rotation gate (missing:
    module [gates]). It has a name, and records whether it belongs to the
    encoder and whether a gradient is taken for it. *)
Record param : Type := Param {
  pname : str;
  encoder : bool;
  requires_grad : bool
}.

Global Instance param_eq_dec : EqDecision param.
Proof. solve_decision. Defined.

(** Modelled from the spec: the gates [RX(name).on(obj)],
    [RY(name).on(obj)], [X(obj, ctrl)] and [H.on(obj)] (missing: module
    [gates]). *)
Inductive gate : Type :=
  | RX (p : param) (obj : Z)
  | RY (p : param) (obj : Z)
  | X (obj ctrl : Z)
  | H (obj : Z).

Global Instance gate_eq_dec : EqDecision gate.
Proof. solve_decision. Defined.

(** Modelled from the spec: [Circuit], the sequence of its gates (missing:
    module [circuit]); [Circuit()] is [[]] and [+=] appends. *)
Abbreviation Circuit := (list gate).

(** Modelled from the spec: the parameter that [RX(name)] or [RY(name)]
    makes from a name (missing: module [gates]). *)
Definition fresh (name : str) : param :=
  {| pname := name; encoder := false; requires_grad := true |}.

Definition map_param (f : param → param) (g : gate) : gate :=
  match g with
  | RX p q => RX (f p) q
  | RY p q => RY (f p) q
  | X _ _ | H _ => g
  end.

(** Modelled from the spec: [circ.as_encoder()], [circ.as_ansatz()] and
    [circ.no_grad()] mark every parameter of the circuit (missing: module
    [circuit]). *)
Definition as_encoder (circ : Circuit) : Circuit :=
  map_param (λ p, {| pname := pname p; encoder := true;
                     requires_grad := requires_grad p |}) <$> circ.

Definition as_ansatz (circ : Circuit) : Circuit :=
  map_param (λ p, {| pname := pname p; encoder := false;
                     requires_grad := requires_grad p |}) <$> circ.

Definition no_grad (circ : Circuit) : Circuit :=
  map_param (λ p, {| pname := pname p; encoder := encoder p;
                     requires_grad := false |}) <$> circ.

Definition gate_param (g : gate) : option param :=
  match g with
  | RX p _ | RY p _ => Some p
  | X _ _ | H _ => None
  end.

(** Modelled from the spec: [circ.params_name] (missing: module
    [circuit]). *)
Definition params_name (circ : Circuit) : list str :=
  omap (λ g, pname <$> gate_param g) circ.

(** Modelled from the spec: [UN(g, n)], the gate on each of the qubits
    [0 .. n-1] (missing: module [circuit]). *)
Definition UN (g : Z → gate) (n : Z) : Circuit := g <$> range 0 n.

(** [if prefix and prefix[-1] != '_': prefix += '_'] *)
Definition with_underscore (prefix : str) : str :=
  match last prefix with
  | Some c => if decide (c ≠ "_"%char) then prefix ++ lit "_" else prefix
  | None => prefix
  end.

Definition GenerateEncoderCircuit (n_qubits : Z) (prefix : str) : Circuit :=
  let prefix := with_underscore prefix in
  let circ :=
    foldl (λ circ i, circ ++ [RX (fresh (prefix ++ str_of_int i)) i])
          [] (range 0 n_qubits) in
  as_encoder circ.

(** ** Training data *)

(** The float [k * np.pi]. *)
Record angle : Type := PiTimes { coeff : Z }.

Global Instance angle_eq_dec : EqDecision angle.
Proof. solve_decision. Defined.

(** [int(np.ceil(np.log2(x)))] for an integer [x]: [log2] of a number that
    is not positive is infinite or not a number, and [int] raises on it.
    The logarithm is taken exactly; the float64 of [np.log2] gives the
    same ceiling for [x] up to [2^31] at least. *)
Definition ceil_log2 (x : Z) : option Z :=
  if 0 <? x then Some (Z.log2_up x) else None.

(** [bin(label)[-1:1:-1].ljust(n_qubits, '0')] *)
Definition label_bin (label : Z) (n_qubits : Z) : str :=
  ljust (slice_rev (bin label) (-1) 1) n_qubits "0"%char.

(** [[int(i)*np.pi for i in label_bin]] *)
Definition label_array (label_bin : str) : option (list angle) :=
  mapM (λ i, k ← int_of_char i; Some (PiTimes k)) label_bin.

(** [rows[-1].extend(xs)] *)
Definition extend_last {A} (rows : list (list A)) (xs : list A)
    : option (list (list A)) :=
  match rows with
  | [] => None
  | _ => Some (alter (λ row, row ++ xs) (length rows - 1)%nat rows)
  end.

(** [np.array(rows)] followed by a cast: the rows must have one length. *)
Definition np_array2 {A} (rows : list (list A)) : option (list (list A)) :=
  match rows with
  | [] => Some rows
  | r :: rs =>
      if forallb (λ r', (length r' =? length r)%nat) rs
      then Some rows else None
  end.

Definition word_step (word_dict : gmap str nat) (n_qubits : Z)
    (word : str) (data_x : list (list angle)) : option (list (list angle)) :=
  label ← word_dict !! word;
  a ← label_array (label_bin (Z.of_nat label) n_qubits);
  extend_last data_x a.

Definition sample_step (word_dict : gmap str nat) (n_qubits : Z)
    (s : sample_t) (data : list (list angle) * list nat)
    : option (list (list angle) * list nat) :=
  let '(around, center) := s in
  let data_x := data.1 ++ [[]] in
  data_x ← for_each around (word_step word_dict n_qubits) data_x;
  y ← word_dict !! center;
  Some (data_x, data.2 ++ [y]).

(** [n_qubits] is the least [n] with [1 + m <= 2^n]: the logarithm is
    taken exactly and the targets are kept as Python integers. The
    float64 of [np.log2] and the casts to [int32] give the same for ids
    below [2^31]. *)
Definition GenerateTrainData (sample : list sample_t)
    (word_dict : gmap str nat) : option (list (list angle) * list nat) :=
  m ← max_of (map_to_list word_dict).*2;
  let n_qubits := Z.log2_up (1 + Z.of_nat m) in
  data ← for_each sample (sample_step word_dict n_qubits) ([], []);
  data_x ← np_array2 data.1;
  Some (data_x, data.2).

(** ** Ansatz, measurement and embedding layer *)

(** The body of the loop over the layers of [GenerateAnsatzCircuit]. *)
Definition ansatz_layer (n_qubits : Z) (prefix : str) (circ : Circuit)
    (l : Z) : Circuit :=
  let circ :=
    foldl (λ circ i,
        circ ++ [RY (fresh (prefix ++ str_of_int l ++ lit "_"
                                   ++ str_of_int i)) i])
      circ (range 0 n_qubits) in
  foldl (λ circ i,
      if (i <? n_qubits) && (i + 1 <? n_qubits)
      then circ ++ [X (i + 1) i] else circ)
    circ (range_step (l `mod` 2) n_qubits 2).

Definition GenerateAnsatzCircuit (n_qubits layers : Z) (prefix : str)
    : Circuit :=
  let prefix := with_underscore prefix in
  let circ := foldl (ansatz_layer n_qubits prefix) [] (range 0 layers) in
  as_ansatz circ.

(** The string [s] that the inner loop of [GenerateEmbeddingHamiltonian]
    builds for the index [i]. *)
Definition ham_string (i : Z) : str :=
  foldl (λ s jk,
      if decide (jk.2 = "1"%char)
      then s ++ lit "Z" ++ str_of_int (Z.of_nat jk.1) ++ lit " " else s)
    [] (enumerate (slice_rev (bin (i + 1)) (-1) 1)).

Definition GenerateEmbeddingHamiltonian (dims n_qubits : Z) : gmap str Q :=
  foldl (λ hams i, <[strip (ham_string i) := 1%Q]> hams) ∅ (range 0 dims).

(** The state of the loop of [QEmbedding]. *)
Record qe_state : Type := QeState {
  st_circ : Circuit;
  st_encoder_param_name : list str;
  st_ansatz_param_name : list str
}.

Definition qe_step (n_qubits layers : Z) (st : qe_state) (w : Z) : qe_state :=
  let encoder :=
    GenerateEncoderCircuit n_qubits (lit "Encoder_" ++ str_of_int w) in
  let ansatz :=
    GenerateAnsatzCircuit n_qubits layers (lit "Ansatz_" ++ str_of_int w) in
  let encoder := no_grad encoder in
  let circ := st_circ st ++ encoder in
  let circ := circ ++ ansatz in
  {| st_circ := circ;
     st_encoder_param_name :=
       st_encoder_param_name st ++ params_name encoder;
     st_ansatz_param_name :=
       st_ansatz_param_name st ++ params_name ansatz |}.

Definition QEmbedding (num_embedding embedding_dim window layers : Z)
    : option Circuit :=
  n_qubits ← ceil_log2 num_embedding;
  let circ : Circuit := [] in
  let circ := UN H n_qubits in
  let st := foldl (qe_step n_qubits layers) (QeState circ [] [])
                  (range 0 (2 * window)) in
  Some (st_circ st).

(** ** The encoder example *)

(** [dict(zip(keys, values))]: a key that comes again replaces the value of
    its first occurrence. *)
Definition dict_of_zip {V} (keys : list str) (values : list V) : gmap str V :=
  foldl (λ d kv, <[kv.1 := kv.2]> d) ∅ (zip keys values).

(** The values of the parameters of the encoder for a label, as the
    notebook makes them before it runs the encoder of [n_qubits = 3] qubits
    on the label 2 with the prefix ['e']: the binary form of the label, its
    angles, the names of the parameters of the encoder circuit, and the
    dictionary of the pairs of a name and an angle. *)
Definition encoder_values (n_qubits label : Z) (prefix : str)
    : option (gmap str angle) :=
  let label_bin := label_bin label n_qubits in
  label_array ← label_array label_bin;
  let encoder := GenerateEncoderCircuit n_qubits prefix in
  let encoder_params_names := params_name encoder in
  Some (dict_of_zip encoder_params_names label_array).

(** * Vocabulary of the properties *)

(** The bits of a number that is not negative, least significant first,
    as [bin] lists them ([bin(0)] has the one digit [0]). *)
Definition lsb_bits (v : Z) : list bool :=
  match v with
  | Zpos p => bits_le p
  | _ => [false]
  end.

(** Reading a bit string as a little-endian binary number: item [j] is
    bit [j]. *)
Fixpoint decode_bits (bs : list bool) : Z :=
  match bs with
  | [] => 0
  | b :: bs' => Z.b2z b + 2 * decode_bits bs'
  end.

(** Character [j] of a label is bit [j]. *)
Definition decode_chars (s : str) : Z :=
  decode_bits ((λ c, bool_decide (c = "1"%char)) <$> s).

(** Angle [j] being nonzero is bit [j]. *)
Definition decode_angles (a : list angle) : Z :=
  decode_bits ((λ x, bool_decide (coeff x ≠ 0)) <$> a).

(** The angle that a character of a label becomes. *)
Definition angle_of_bit (b : bool) : angle := PiTimes (Z.b2z b).

(** How one character of a label and the angle made from it are related. *)
Definition char_angle (c : ascii) (x : angle) : Prop :=
  (c = "1"%char ∧ x = PiTimes 1) ∨ (c = "0"%char ∧ x = PiTimes 0).

(** The strict order: [s] sorts before [t]. *)
Definition str_lt (s t : str) : Prop := str_le s t ∧ s ≠ t.

(** What the design document says of a word dictionary [d] for the
    token list [tokens]. *)
Record is_word_dict (tokens : list str) (d : gmap str nat) : Prop := {
  (** its keys are exactly the distinct tokens *)
  wd_dom : dom d = list_to_set tokens;
  (** its size is the number of distinct tokens *)
  wd_size : size d = length (remove_dups tokens);
  (** the ids follow the sorted order of the words *)
  wd_sorted : ∃ ws : list str,
    StronglySorted str_lt ws
    ∧ (∀ w, w ∈ ws ↔ w ∈ tokens)
    ∧ length ws = size d
    ∧ ∀ w i, d !! w = Some i ↔ ws !! i = Some w;
  (** two words never share an id *)
  wd_inj : ∀ w1 w2 i, d !! w1 = Some i → d !! w2 = Some i → w1 = w2;
  (** the ids are exactly [0 .. size d - 1] *)
  wd_onto : ∀ i, (∃ w, d !! w = Some i) ↔ (i < size d)%nat
}.

(** The context of position [k + w]: the tokens [k .. k+2w] in order,
    without the one at [k + w]. *)
Definition window_context (tokens : list str) (w k : nat) : list str :=
  take w (drop k tokens) ++ take w (drop (k + w + 1) tokens).

(** One iteration of the outer loop, as a function of the position. *)
Definition sample_at (tokens : list str) (window : Z) (item : nat * str)
    : option sample_t :=
  let index := Z.of_nat item.1 in
  around ← for_each (range index (index + 2 * window + 1))
                    (around_step tokens window index) [];
  center ← getitem tokens (index + window);
  Some (around, center).

(** The sample of position [k] for the window [w]: the center is token
    [k + w], the context is the tokens [k .. k + 2w] in position order
    with token [k + w] left out. *)
Definition is_window_sample (tokens : list str) (w k : nat) (smp : sample_t)
    : Prop :=
  tokens !! (k + w)%nat = Some smp.2
  ∧ length smp.1 = (2 * w)%nat
  ∧ ∀ j, (j < 2 * w)%nat →
      smp.1 !! j
      = tokens !! (if decide (j < w)%nat then k + j else k + j + 1)%nat
      ∧ is_Some (smp.1 !! j).

(** The prefix of the parameter names: [prefix] with ['_'] appended if and
    only if [prefix] is not empty and does not end in ['_']. *)
Definition param_prefix (prefix : str) : str :=
  if decide (prefix ≠ [] ∧ last prefix ≠ Some "_"%char)
  then prefix ++ lit "_" else prefix.

(** The RY gates of layer [l]: one on each qubit. *)
Definition ry_gates (n_qubits : Z) (p : str) (l : Z) : Circuit :=
  (λ i, RY {| pname := p ++ str_of_int l ++ lit "_" ++ str_of_int i;
              encoder := false; requires_grad := true |} i)
  <$> seqZ 0 n_qubits.

(** The CNOT gates of layer [l]: control [i], target [i + 1], for
    [i = l % 2, l % 2 + 2, ...] as long as [i + 1 < n_qubits]. *)
Definition cnot_gates (n_qubits : Z) (l : Z) : Circuit :=
  (λ j, X (l `mod` 2 + 2 * j + 1) (l `mod` 2 + 2 * j))
  <$> seqZ 0 ((n_qubits - l `mod` 2) `div` 2).

Definition layer_gates (n_qubits : Z) (p : str) (l : Z) : Circuit :=
  ry_gates n_qubits p l ++ cnot_gates n_qubits l.

Definition is_cnot (g : gate) : bool :=
  match g with X _ _ => true | _ => false end.

(** The block that iteration [w] of the loop of [QEmbedding] appends: the
    encoder, with no gradient, then the ansatz. *)
Definition qe_block (n_qubits layers : Z) (w : Z) : Circuit :=
  no_grad (GenerateEncoderCircuit n_qubits (lit "Encoder_" ++ str_of_int w))
  ++ GenerateAnsatzCircuit n_qubits layers (lit "Ansatz_" ++ str_of_int w).

(** The term of qubit [j] in a key, and the same followed by the space
    that the loop appends. *)
Definition ham_term (j : nat) : str := lit "Z" ++ str_of_int (Z.of_nat j).

Definition ham_term_sp (j : nat) : str := ham_term j ++ lit " ".

(** [' '.join(l)] *)
Fixpoint join_space (l : list str) : str :=
  match l with
  | [] => []
  | [x] => x
  | x :: l' => x ++ lit " " ++ join_space l'
  end.

(** The positions of the bits that are set, counted from [k]. *)
Fixpoint true_positions (k : nat) (bs : list bool) : list nat :=
  match bs with
  | [] => []
  | b :: bs' => (if b then [k] else []) ++ true_positions (S k) bs'
  end.

(** The qubits of the key of index [i]: the bits of [i + 1] that are set. *)
Definition ham_qubits (i : Z) : list nat := true_positions 0 (lsb_bits (i + 1)).

(** The key of index [i], as [GenerateEmbeddingHamiltonian] computes it. *)
Definition ham_key (i : Z) : str := strip (ham_string i).

(** [js] lists the set bits of [v], least significant first. *)
Definition is_set_bits (v : Z) (js : list nat) : Prop :=
  StronglySorted lt js ∧ ∀ j, j ∈ js ↔ Z.testbit v (Z.of_nat j) = true.

(** The number whose set bits are [js]. *)
Definition sum_pow2 (js : list nat) : Z :=
  foldr (λ j acc, 2 ^ Z.of_nat j + acc) 0 js.

(** The angles of one context word: its label, in binary, as angles. *)
Definition word_angles (word_dict : gmap str nat) (n_qubits : Z) (word : str)
    : option (list angle) :=
  label ← word_dict !! word;
  label_array (label_bin (Z.of_nat label) n_qubits).

(** The row and the target of one sample. *)
Definition sample_data (word_dict : gmap str nat) (n_qubits : Z)
    (s : sample_t) : option (list angle * nat) :=
  rows ← mapM (word_angles word_dict n_qubits) s.1;
  y ← word_dict !! s.2;
  Some (concat rows, y).

(** The parameters of a circuit, in the order of its gates. *)
Definition circuit_params (circ : Circuit) : list param :=
  omap gate_param circ.

(** Its encoder parameters: those that [as_encoder] marked. *)
Definition encoder_params (circ : Circuit) : list param :=
  filter (λ p, encoder p = true) (circuit_params circ).

(** Its trainable parameters: those for which a gradient is taken. *)
Definition trainable_params (circ : Circuit) : list param :=
  filter (λ p, requires_grad p = true) (circuit_params circ).

(** The parameters of the encoder of block [w] of [QEmbedding]. *)
Definition block_encoder_params (n_qubits w : Z) : list param :=
  (λ i, {| pname := param_prefix (lit "Encoder_" ++ str_of_int w)
                    ++ str_of_int i;
           encoder := true; requires_grad := false |}) <$> seqZ 0 n_qubits.

(** The parameters of layer [l] of the ansatz of prefix [p]. *)
Definition layer_params (n_qubits : Z) (p : str) (l : Z) : list param :=
  (λ i, {| pname := p ++ str_of_int l ++ lit "_" ++ str_of_int i;
           encoder := false; requires_grad := true |}) <$> seqZ 0 n_qubits.

(** The parameters of the ansatz of block [w] of [QEmbedding]. *)
Definition block_ansatz_params (n_qubits layers w : Z) : list param :=
  concat (layer_params n_qubits
            (param_prefix (lit "Ansatz_" ++ str_of_int w))
          <$> seqZ 0 layers).

(** [c] can occur in a decimal numeral: a digit or the sign. *)
Definition numeral_char (c : ascii) : bool :=
  match int_of_char c with
  | Some _ => true
  | None => bool_decide (c = "-"%char)
  end.

(** The qubits that a gate acts on. *)
Definition gate_qubits (g : gate) : list Z :=
  match g with
  | RX _ q | RY _ q | H q => [q]
  | X obj ctrl => [obj; ctrl]
  end.

(** The dictionaries whose ids numpy keeps as they are. [np.log2] computes
    in float64 and the targets are cast to [int32]. For an integer up to
    [2^31] the float is the integer itself and the ceiling of its float
    logarithm is the exact [ceil(log2)]: between two powers of two the
    logarithm lies at least [2^-31] above the lower exponent, which is far
    more than the spacing [2^-47] of the floats there. An id below [2^31]
    is kept by the cast. *)
Definition int32_ids (word_dict : gmap str nat) : Prop :=
  map_Forall (λ _ id, Z.of_nat id < 2 ^ 31) word_dict.

(** * Properties *)

(** ** The binary code of a word id *)

Section Binary.

Lemma slice_rev_bin v :
  0 ≤ v → slice_rev (bin v) (-1) 1 = bit_char <$> lsb_bits v.
Proof.
  intros Hv. destruct v as [|p|p]; [done| |lia].
  unfold slice_rev, bin, bin_digits.
  change (Z.pos p <? 0) with false. cbv iota.
  set (d := bit_char <$> bits_le p).
  assert (Hd : (0 < length d)%nat).
  { unfold d. rewrite length_fmap. destruct p; simpl; lia. }
  cbn [lit list_ascii_of_string app length].
  rewrite (length_rev d).
  unfold clip_bwd.
  replace (-1 <? 0) with true by done. replace (1 <? 0) with false by done.
  rewrite Z.max_r, Z.min_l by lia.
  replace (Z.to_nat (1 + 1)) with 2%nat by done. cbn [drop]. rewrite drop_0.
  rewrite take_ge by (rewrite length_rev; lia).
  apply rev_involutive.
Qed.

Lemma label_bin_bits v n :
  0 ≤ v →
  label_bin v n
  = bit_char <$> (lsb_bits v
      ++ replicate (Z.to_nat (n - Z.of_nat (length (lsb_bits v)))) false).
Proof.
  intros Hv. unfold label_bin, ljust. rewrite slice_rev_bin by done.
  by rewrite fmap_app, fmap_replicate, length_fmap.
Qed.

Lemma decode_bits_app_false bs k :
  decode_bits (bs ++ replicate k false) = decode_bits bs.
Proof.
  induction bs as [|b bs IH]; simpl.
  - induction k as [|k IHk]; simpl; lia.
  - by rewrite IH.
Qed.

Lemma decode_bits_le p : decode_bits (bits_le p) = Zpos p.
Proof. induction p as [p IH|p IH|]; simpl; rewrite ?IH; lia. Qed.

Lemma decode_lsb_bits v : 0 ≤ v → decode_bits (lsb_bits v) = v.
Proof. destruct v; simpl; [done| |lia]. intros _. apply decode_bits_le. Qed.

Lemma bits_le_testbit p (j : nat) b :
  bits_le p !! j = Some b → b = Pos.testbit p (N.of_nat j).
Proof.
  revert j. induction p as [p IH|p IH|]; intros [|j] Hj; simplify_eq/=;
    try done.
  all: change (Pos.pred_N (Pos.of_succ_nat j))
         with (N.pred (N.of_nat (S j))).
  all: replace (N.pred (N.of_nat (S j))) with (N.of_nat j) by lia; auto.
Qed.

Lemma lsb_bits_testbit v (j : nat) b :
  0 ≤ v → lsb_bits v !! j = Some b → b = Z.testbit v (Z.of_nat j).
Proof.
  intros Hv Hj. destruct v as [|p|p]; [|clear Hv|lia].
  - rewrite Z.testbit_0_l. destruct j as [|[|j]]; by simplify_eq/=.
  - apply bits_le_testbit in Hj as ->.
    rewrite Z.testbit_Zpos by lia. f_equal. lia.
Qed.

Lemma length_bits_le p (k : nat) :
  Z.pos p < 2 ^ Z.of_nat k → (length (bits_le p) ≤ k)%nat.
Proof.
  revert k. induction p as [p IH|p IH|]; intros [|k];
    rewrite ?Nat2Z.inj_succ, ?Z.pow_succ_r by lia; simpl; try lia.
  - intros Hp. specialize (IH k). lia.
  - intros Hp. specialize (IH k). lia.
Qed.

Lemma bits_le_below p (j : nat) :
  (length (bits_le p) ≤ j)%nat → Z.pos p < 2 ^ Z.of_nat j.
Proof.
  revert j. induction p as [p IH|p IH|]; intros [|j] Hlen; simpl in Hlen;
    try lia; rewrite Nat2Z.inj_succ, Z.pow_succ_r by lia.
  - specialize (IH j). lia.
  - specialize (IH j). lia.
  - pose proof (Z.pow_pos_nonneg 2 (Z.of_nat j)). lia.
Qed.

(** The bits beyond those that [bin] lists are 0. *)
Lemma testbit_above_lsb_bits v (j : nat) :
  0 ≤ v → (length (lsb_bits v) ≤ j)%nat → Z.testbit v (Z.of_nat j) = false.
Proof.
  intros Hv Hlen. destruct v as [|p|p]; [apply Z.testbit_0_l| |lia].
  apply Z.bits_above_log2; [lia|].
  apply Z.log2_lt_pow2; [lia|]. by apply bits_le_below.
Qed.

Lemma length_lsb_bits v n :
  0 ≤ v → v < 2 ^ n → 1 ≤ n → Z.of_nat (length (lsb_bits v)) ≤ n.
Proof.
  intros Hv Hn H1. destruct v as [|p|p]; simpl; [lia| |lia].
  pose proof (length_bits_le p (Z.to_nat n)) as Hp.
  rewrite Z2Nat.id in Hp by lia. lia.
Qed.

Lemma length_label_bin v n :
  0 ≤ v → v < 2 ^ n → 1 ≤ n → Z.of_nat (length (label_bin v n)) = n.
Proof.
  intros Hv Hn H1. rewrite label_bin_bits by done.
  rewrite length_fmap, length_app, length_replicate.
  pose proof (length_lsb_bits v n Hv Hn H1). lia.
Qed.

Lemma label_bin_lookup v n (j : nat) c :
  0 ≤ v → label_bin v n !! j = Some c →
  c = bit_char (Z.testbit v (Z.of_nat j)).
Proof.
  intros Hv. rewrite label_bin_bits by done.
  rewrite list_lookup_fmap. intros Hj.
  destruct (_ !! j) as [b|] eqn:Hb; simplify_eq/=. f_equal.
  apply lookup_app_Some in Hb as [Hb|[Hlen Hb]].
  - by apply lsb_bits_testbit.
  - apply lookup_replicate in Hb as [-> _].
    symmetry. by apply testbit_above_lsb_bits.
Qed.

Lemma label_array_bits bs :
  label_array (bit_char <$> bs) = Some (angle_of_bit <$> bs).
Proof.
  unfold label_array. apply mapM_Some_2, Forall2_fmap, Forall_Forall2_diag.
  apply Forall_forall. by intros [] _.
Qed.

Lemma decode_chars_bits bs : decode_chars (bit_char <$> bs) = decode_bits bs.
Proof.
  unfold decode_chars. rewrite <- list_fmap_compose. f_equal.
  rewrite <- (list_fmap_id bs) at 2. apply list_fmap_ext. by intros _ [] _.
Qed.

Lemma decode_angles_bits bs :
  decode_angles (angle_of_bit <$> bs) = decode_bits bs.
Proof.
  unfold decode_angles. rewrite <- list_fmap_compose. f_equal.
  rewrite <- (list_fmap_id bs) at 2. apply list_fmap_ext. by intros _ [] _.
Qed.

(** The round trip holds whatever the width is: [ljust] only pads. *)
Lemma label_roundtrip_any_width v n :
  0 ≤ v →
  decode_chars (label_bin v n) = v ∧
  ∃ a, label_array (label_bin v n) = Some a
       ∧ Forall2 char_angle (label_bin v n) a
       ∧ decode_angles a = v.
Proof.
  intros Hv. rewrite label_bin_bits by done.
  set (bs := lsb_bits v ++ _).
  assert (Hbs : decode_bits bs = v).
  { unfold bs. rewrite decode_bits_app_false. by apply decode_lsb_bits. }
  split; [by rewrite decode_chars_bits|].
  exists (angle_of_bit <$> bs). split; [apply label_array_bits|].
  split; [|by rewrite decode_angles_bits].
  apply Forall2_fmap, Forall_Forall2_diag, Forall_forall.
  intros [] _; [by left|by right].
Qed.

(** The number of qubits that [GenerateTrainData] computes is enough for
    every id up to the maximum. *)
Lemma id_below_pow2_ceil_log2 v m :
  0 ≤ v ≤ m → v < 2 ^ Z.log2_up (1 + m).
Proof.
  intros Hv. destruct (decide (m = 0)) as [->|Hm].
  { by replace v with 0 by lia. }
  pose proof (Z.log2_up_spec (1 + m)). lia.
Qed.
End Binary.

(** C1. For every word id [v] and every number of qubits [n] with
    [v < 2^n], the label [bin(v)[-1:1:-1].ljust(n, '0')], whose characters
    become the angles pi (for '1') and 0 (for '0'), is read back as [v],
    both from its characters and from its angles, when item [j] is taken as
    bit [j] of a little-endian binary number. The number of qubits of
    [GenerateTrainData], [ceil(log2(1 + m))] for the maximum id [m], is
    such an [n] for every id of the dictionary. *)
Theorem label_bin_roundtrip (v n : Z) :
  0 ≤ v → v < 2 ^ n →
  (decode_chars (label_bin v n) = v ∧
   ∃ a, label_array (label_bin v n) = Some a
        ∧ Forall2 char_angle (label_bin v n) a
        ∧ decode_angles a = v)
  ∧ ∀ m, v ≤ m → v < 2 ^ Z.log2_up (1 + m).
Proof.
  intros Hv _. split; [by apply label_roundtrip_any_width|].
  intros m Hm. by apply id_below_pow2_ceil_log2.
Qed.

Lemma label_bin_roundtrip_witness :
  0 ≤ 2 ∧ 2 < 2 ^ 3 ∧ label_bin 2 3 = lit "010" ∧
  decode_chars (label_bin 2 3) = 2 ∧
  ∃ a, label_array (label_bin 2 3) = Some a
       ∧ Forall2 char_angle (label_bin 2 3) a
       ∧ decode_angles a = 2.
Proof.
  split; [lia|]. split; [reflexivity|]. split; [reflexivity|].
  apply (label_bin_roundtrip 2 3); [lia|reflexivity].
Defined.

(** ** The word dictionary *)

Section Order.

Global Instance str_le_po : PartialOrder str_le.
Proof.
  split; [split|].
  - intros s. unfold str_le. reflexivity.
  - intros s t u. unfold str_le. apply transitivity.
  - intros s t Hst Hts.
    rewrite <- (list_ascii_of_string_of_list_ascii s),
            <- (list_ascii_of_string_of_list_ascii t).
    f_equal. by apply (anti_symm String.le).
Qed.

Global Instance str_le_total : Total str_le.
Proof. intros s t. unfold str_le. apply total, _. Qed.

(** [str_le] compares character by character, by code point, and a
    proper prefix comes first. *)
Lemma str_le_nil t : str_le [] t.
Proof. by destruct t. Qed.

Lemma str_le_cons_nil a s : ¬ str_le (a :: s) [].
Proof. intros []. Qed.

Lemma str_le_cons a s b t :
  str_le (a :: s) (b :: t)
  ↔ (nat_of_ascii a < nat_of_ascii b)%nat ∨ (a = b ∧ str_le s t).
Proof.
  unfold str_le, String.le, String.leb. simpl.
  unfold Ascii.compare.
  destruct (N.compare_spec (N_of_ascii a) (N_of_ascii b)) as [Heq|Hlt|Hgt].
  - apply (f_equal ascii_of_N) in Heq. rewrite !ascii_N_embedding in Heq.
    subst b. split; [by right|].
    intros [?|[_ ?]]; [lia|done].
  - split; [intros _; left|done]. unfold nat_of_ascii. lia.
  - split; [done|]. unfold nat_of_ascii.
    intros [?|[-> ?]]; lia.
Qed.
End Order.

Section WordDict.

Lemma elem_of_sorted_set l w : w ∈ sorted_set l ↔ w ∈ l.
Proof.
  unfold sorted_set. rewrite merge_sort_Permutation.
  by rewrite elem_of_elements, elem_of_list_to_set.
Qed.

Lemma NoDup_sorted_set l : NoDup (sorted_set l).
Proof.
  unfold sorted_set. rewrite merge_sort_Permutation. apply NoDup_elements.
Qed.

Lemma sorted_set_sorted l : StronglySorted str_lt (sorted_set l).
Proof.
  pose proof (NoDup_sorted_set l) as Hnd.
  assert (Hs : StronglySorted str_le (sorted_set l)).
  { apply StronglySorted_merge_sort; apply _. }
  induction Hs as [|w ws Hs IH Hall]; [constructor|].
  apply NoDup_cons in Hnd as [Hw Hnd].
  constructor; [by apply IH|].
  apply Forall_forall. intros w' Hw'. split.
  - by eapply Forall_forall in Hall.
  - by intros ->.
Qed.

Lemma length_sorted_set l : length (sorted_set l) = length (remove_dups l).
Proof.
  apply Permutation_length, NoDup_Permutation.
  - apply NoDup_sorted_set.
  - apply NoDup_remove_dups.
  - intros w. by rewrite elem_of_sorted_set, elem_of_remove_dups.
Qed.

(** The loop of the dict comprehension, started at position [k] with
    the dictionary [d0]. *)
Lemma dict_fold_lookup (ws : list str) (k : nat) (d0 : gmap str nat) w i :
  NoDup ws →
  (foldl (λ d iw, <[iw.2 := iw.1]> d) d0
         (imap (λ j x, ((k + j)%nat, x)) ws)) !! w = Some i
  ↔ (∃ j, ws !! j = Some w ∧ i = (k + j)%nat) ∨ (d0 !! w = Some i ∧ w ∉ ws).
Proof.
  revert k d0. induction ws as [|x ws IH]; intros k d0 Hnd.
  - simpl. split; [intros ?; right; split; [done|apply not_elem_of_nil]|].
    intros [(j & Hj & _)|[? _]]; [by rewrite lookup_nil in Hj|done].
  - apply NoDup_cons in Hnd as [Hx Hnd].
    rewrite imap_cons. cbn [foldl fst snd].
    rewrite (imap_ext _ (λ j y, ((S k + j)%nat, y)))
      by (intros; cbn; f_equal; lia).
    rewrite (IH (S k) _ Hnd). split.
    + intros [(j & Hj & ->)|[Hd Hw]].
      * left. exists (S j). split; [done|lia].
      * destruct (decide (x = w)) as [->|Hne].
        -- rewrite lookup_insert_eq in Hd. simplify_eq.
           left. exists 0%nat. split; [done|lia].
        -- rewrite lookup_insert_ne in Hd by done.
           right. split; [done|]. by apply not_elem_of_cons.
    + intros [(j & Hj & ->)|[Hd Hw]].
      * destruct j as [|j]; simplify_eq/=.
        -- right. split; [|done]. rewrite lookup_insert_eq.
           by rewrite Nat.add_0_r.
        -- left. exists j. split; [done|lia].
      * apply not_elem_of_cons in Hw as [Hne Hw].
        right. split; [|done]. by rewrite lookup_insert_ne.
Qed.

Lemma dict_of_enumerate_lookup ws w i :
  NoDup ws → dict_of_enumerate ws !! w = Some i ↔ ws !! i = Some w.
Proof.
  intros Hnd. unfold dict_of_enumerate, enumerate.
  rewrite (dict_fold_lookup ws 0 ∅ w i Hnd). split.
  - intros [(j & Hj & ->)|[Hd _]]; [done|by rewrite lookup_empty in Hd].
  - intros Hi. left. by exists i.
Qed.

Lemma dict_of_sorted_set tokens :
  is_word_dict tokens (dict_of_enumerate (sorted_set tokens)).
Proof.
  set (ws := sorted_set tokens). set (d := dict_of_enumerate ws).
  assert (Hnd : NoDup ws) by apply NoDup_sorted_set.
  assert (Hlk : ∀ w i, d !! w = Some i ↔ ws !! i = Some w).
  { intros w i. by apply dict_of_enumerate_lookup. }
  assert (Hdom : dom d = list_to_set tokens).
  { apply set_eq. intros w.
    rewrite elem_of_dom, elem_of_list_to_set, <- elem_of_sorted_set.
    fold ws. rewrite list_elem_of_lookup. unfold is_Some.
    split; intros [i Hi]; exists i; by apply Hlk. }
  assert (Hsize : size d = length ws).
  { rewrite <- size_dom, Hdom.
    replace (list_to_set tokens : gset str) with (list_to_set ws : gset str).
    - by apply size_list_to_set.
    - apply set_eq. intros w. rewrite !elem_of_list_to_set.
      apply elem_of_sorted_set. }
  split.
  - done.
  - rewrite Hsize. apply length_sorted_set.
  - exists ws. split; [apply sorted_set_sorted|].
    split; [apply elem_of_sorted_set|]. by split.
  - intros w1 w2 i H1%Hlk H2%Hlk. congruence.
  - intros i. rewrite Hsize. split.
    + intros [w Hw%Hlk]. by eapply lookup_lt_Some.
    + intros Hi. destruct (lookup_lt_is_Some_2 ws i Hi) as [w Hw].
      exists w. by apply Hlk.
Qed.
End WordDict.

(** ** Loops that append *)

Section Loops.
Context {A B : Type}.

(** A loop that appends one item per iteration collects the items. *)
Lemma for_each_collect (f : A → option B) xs acc :
  for_each xs (λ x acc, y ← f x; Some (acc ++ [y])) acc
  = ys ← mapM f xs; Some (acc ++ ys).
Proof.
  revert acc. induction xs as [|x xs IH]; intros acc; simpl.
  - by rewrite app_nil_r.
  - destruct (f x) as [y|]; simpl; [|done].
    rewrite IH. destruct (mapM f xs) as [ys|]; simpl; [|done].
    by rewrite <- app_assoc.
Qed.

(** The same when the body appends only for the items that pass a test. *)
Lemma for_each_collect_if (P : A → Prop) `{!∀ x, Decision (P x)}
    (f : A → option B) xs acc :
  for_each xs (λ x acc,
      if decide (P x) then y ← f x; Some (acc ++ [y]) else Some acc) acc
  = ys ← mapM f (filter P xs); Some (acc ++ ys).
Proof.
  revert acc. induction xs as [|x xs IH]; intros acc; simpl.
  - by rewrite app_nil_r.
  - rewrite filter_cons. destruct (decide (P x)); simpl; [|by apply IH].
    destruct (f x) as [y|]; simpl; [|done].
    rewrite IH. destruct (mapM f (filter P xs)) as [ys|]; simpl; [|done].
    by rewrite <- app_assoc.
Qed.
End Loops.

Lemma for_each_ext {A S} (body1 body2 : A → S → option S) xs s :
  (∀ x s, body1 x s = body2 x s) →
  for_each xs body1 s = for_each xs body2 s.
Proof.
  intros Hb. revert s. induction xs as [|x xs IH]; intros s; simpl; [done|].
  rewrite Hb. destruct (body2 x s); simpl; auto.
Qed.

(** ** The samples *)

Section Sampling.

Lemma getitem_nonneg {A} (l : list A) i :
  0 ≤ i → getitem l i = l !! Z.to_nat i.
Proof.
  intros Hi. unfold getitem.
  replace (i <? 0) with false by lia.
  destruct (_ && _) eqn:Hb; [done|].
  symmetry. apply lookup_ge_None. lia.
Qed.

Lemma getitem_seqZ {A} (l : list A) (a n : nat) :
  (a + n ≤ length l)%nat →
  mapM (getitem l) (seqZ (Z.of_nat a) (Z.of_nat n))
  = Some (take n (drop a l)).
Proof.
  intros Hlen. apply mapM_Some_2, Forall2_same_length_lookup_2.
  - rewrite length_seqZ, length_take, length_drop. lia.
  - intros i z x [-> Hi]%lookup_seqZ Hx.
    rewrite getitem_nonneg by lia.
    rewrite lookup_take_lt, lookup_drop in Hx by lia.
    rewrite <- Hx. f_equal. lia.
Qed.

Lemma filter_all {A} (P : A → Prop) `{!∀ x, Decision (P x)} (l : list A) :
  Forall P l → filter P l = l.
Proof.
  induction 1 as [|x l Hx _ IH]; [done|].
  by rewrite filter_cons_True, IH.
Qed.

Lemma around_loop tokens (w k : nat) :
  (k + 2 * w < length tokens)%nat →
  for_each (range (Z.of_nat k) (Z.of_nat k + 2 * Z.of_nat w + 1))
           (around_step tokens (Z.of_nat w) (Z.of_nat k)) []
  = Some (window_context tokens w k).
Proof.
  intros Hlen. unfold around_step.
  rewrite (for_each_collect_if (λ i, i ≠ Z.of_nat k + Z.of_nat w)).
  unfold range.
  replace (Z.of_nat k + 2 * Z.of_nat w + 1 - Z.of_nat k)
    with (Z.of_nat w + (1 + Z.of_nat w)) by lia.
  rewrite seqZ_app, (seqZ_app _ 1), !filter_app by lia.
  rewrite (filter_all _ (seqZ (Z.of_nat k) _))
    by (apply Forall_forall; intros i Hi%elem_of_seqZ; lia).
  rewrite (filter_all _ (seqZ (Z.of_nat k + Z.of_nat w + 1) _))
    by (apply Forall_forall; intros i Hi%elem_of_seqZ; lia).
  change (seqZ (Z.of_nat k + Z.of_nat w) 1) with [Z.of_nat k + Z.of_nat w].
  rewrite filter_cons_False by (intros Hne; by apply Hne).
  rewrite filter_nil, app_nil_l.
  replace (Z.of_nat k + Z.of_nat w + 1) with (Z.of_nat (k + w + 1)) by lia.
  assert (Hm : mapM (getitem tokens)
                 (seqZ (Z.of_nat k) (Z.of_nat w)
                  ++ seqZ (Z.of_nat (k + w + 1)) (Z.of_nat w))
               = Some (window_context tokens w k)).
  { apply mapM_Some_2, Forall2_app; apply mapM_Some_1, getitem_seqZ; lia. }
  by rewrite Hm.
Qed.

Lemma sampling_step_sample_at tokens window item sampling :
  sampling_step tokens window item sampling
  = y ← sample_at tokens window item; Some (sampling ++ [y]).
Proof.
  unfold sampling_step, sample_at.
  destruct (for_each _ _ _) as [around|]; simpl; [|done].
  by destruct (getitem _ _).
Qed.

Lemma sample_at_window tokens (w k : nat) x center :
  (k + 2 * w < length tokens)%nat →
  tokens !! (k + w)%nat = Some center →
  sample_at tokens (Z.of_nat w) (k, x)
  = Some (window_context tokens w k, center).
Proof.
  intros Hlen Hc. unfold sample_at. cbn [fst].
  rewrite around_loop by done. simpl.
  rewrite getitem_nonneg by lia.
  replace (Z.to_nat (Z.of_nat k + Z.of_nat w)) with (k + w)%nat by lia.
  by rewrite Hc.
Qed.

(** The length of the slice [all_words[window:-window]]. *)
Lemma length_slice_window {A} (l : list A) (w : Z) :
  0 ≤ w →
  length (slice l w (- w))
  = if decide (w = 0) then 0%nat
    else Z.to_nat (Z.of_nat (length l) - 2 * w).
Proof.
  intros Hw. unfold slice, clip_fwd.
  rewrite length_take, length_drop.
  destruct (decide (w = 0)) as [->|Hne]; [simpl; lia|].
  replace (w <? 0) with false by lia. replace (- w <? 0) with true by lia.
  lia.
Qed.

Lemma sampling_loop tokens (w : Z) :
  0 ≤ w →
  ∃ s, for_each (enumerate (slice tokens w (- w)))
                (sampling_step tokens w) [] = Some s
    ∧ length s = length (slice tokens w (- w))
    ∧ ∀ k, (k < length s)%nat →
        ∃ center, tokens !! (k + Z.to_nat w)%nat = Some center
          ∧ s !! k = Some (window_context tokens (Z.to_nat w) k, center).
Proof.
  intros Hw. set (sl := slice tokens w (- w)).
  pose proof (length_slice_window tokens w Hw) as Hsl. fold sl in Hsl.
  assert (Hin : ∀ k, (k < length sl)%nat →
                     (k + 2 * Z.to_nat w < length tokens)%nat).
  { intros k Hk. destruct (decide (w = 0)); lia. }
  set (ys := imap (λ k _, (window_context tokens (Z.to_nat w) k,
                           default [] (tokens !! (k + Z.to_nat w)%nat))) sl).
  assert (Hys : mapM (sample_at tokens w) (enumerate sl) = Some ys).
  { apply mapM_Some_2, Forall2_same_length_lookup_2.
    - unfold ys, enumerate. by rewrite !length_imap.
    - intros k [k' x] y Hx Hy. unfold enumerate in Hx.
      apply list_lookup_imap_Some in Hx as (x' & Hx' & ?).
      apply list_lookup_imap_Some in Hy as (x'' & _ & ->). simplify_eq.
      apply lookup_lt_Some, Hin in Hx'.
      destruct (lookup_lt_is_Some_2 tokens (k + Z.to_nat w)) as [c Hc];
        [lia|].
      rewrite Hc. simpl. rewrite <- (Z2Nat.id w) at 1 by done.
      by apply sample_at_window. }
  exists ys. split; [|split].
  - rewrite (for_each_ext _ (λ item sampling,
      y ← sample_at tokens w item; Some (sampling ++ [y]))).
    + by rewrite for_each_collect, Hys.
    + intros. apply sampling_step_sample_at.
  - unfold ys. by rewrite length_imap.
  - intros k Hk. unfold ys in Hk |- *. rewrite length_imap in Hk.
    destruct (lookup_lt_is_Some_2 sl k Hk) as [x Hx].
    destruct (lookup_lt_is_Some_2 tokens (k + Z.to_nat w)) as [c Hc].
    { specialize (Hin k Hk). lia. }
    exists c. split; [done|].
    by rewrite list_lookup_imap, Hx, Hc.
Qed.
End Sampling.

Section Tokens.

(** The tokens of [split] are the maximal runs without whitespace: none
    is empty, none holds a whitespace character, and together they are
    the corpus without its whitespace. *)
Lemma split_from_tokens word s :
  Forall (λ c, is_space c = false) word →
  Forall (λ w, w ≠ [] ∧ Forall (λ c, is_space c = false) w)
         (split_from word s)
  ∧ concat (split_from word s)
    = word ++ filter (λ c, is_space c = false) s.
Proof.
  revert word. induction s as [|c s IH]; intros word Hword; simpl.
  - destruct word; simpl; [done|]. rewrite !app_nil_r.
    split; [|done]. constructor; [by split|constructor].
  - rewrite filter_cons. destruct (is_space c) eqn:Hc.
    + rewrite decide_False by done.
      destruct (IH [] ltac:(constructor)) as [IH1 IH2].
      destruct word as [|c' word]; [done|].
      split; [by constructor|]. simpl. by rewrite IH2.
    + rewrite decide_True by done.
      destruct (IH (word ++ [c])) as [IH1 IH2].
      { apply Forall_app. by repeat constructor. }
      split; [done|]. by rewrite IH2, <- app_assoc.
Qed.

Lemma split_tokens s :
  Forall (λ w, w ≠ [] ∧ Forall (λ c, is_space c = false) w) (split s)
  ∧ concat (split s) = filter (λ c, is_space c = false) s.
Proof. apply (split_from_tokens [] s). constructor. Qed.
End Tokens.

Lemma window_context_sample tokens w k center :
  (k + 2 * w < length tokens)%nat →
  tokens !! (k + w)%nat = Some center →
  is_window_sample tokens w k (window_context tokens w k, center).
Proof.
  intros Hlen Hc. unfold is_window_sample, window_context. cbn [fst snd].
  assert (Hl1 : length (take w (drop k tokens)) = w).
  { rewrite length_take, length_drop. lia. }
  split; [done|]. split.
  { rewrite length_app, Hl1, length_take, length_drop. lia. }
  intros j Hj.
  assert (Heq : (take w (drop k tokens) ++ take w (drop (k + w + 1) tokens))
                !! j
                = tokens !! (if decide (j < w)%nat then k + j else k + j + 1)%nat).
  { destruct (decide (j < w)%nat).
    - rewrite lookup_app_l by lia. by rewrite lookup_take_lt, lookup_drop.
    - rewrite lookup_app_r, Hl1 by lia.
      rewrite lookup_take_lt, lookup_drop by lia. f_equal. lia. }
  split; [done|]. rewrite Heq. apply lookup_lt_is_Some_2.
  destruct (decide (j < w)%nat); lia.
Qed.

(** What [GenerateWordDictAndSample] returns for a window that is not
    negative. *)
Lemma GenerateWordDictAndSample_returns corpus window :
  0 ≤ window →
  ∃ s, GenerateWordDictAndSample corpus window
       = Some (dict_of_enumerate (sorted_set (split corpus)), s)
    ∧ length s = length (slice (split corpus) window (- window))
    ∧ ∀ k, (k < length s)%nat →
        ∃ smp, s !! k = Some smp
          ∧ is_window_sample (split corpus) (Z.to_nat window) k smp.
Proof.
  intros Hw. unfold GenerateWordDictAndSample.
  destruct (sampling_loop (split corpus) window Hw) as (s & Hs & Hlen & Hk).
  exists s. rewrite Hs. split; [done|]. split; [done|].
  intros k Hlt. destruct (Hk k Hlt) as (center & Hc & Hsk).
  eexists. split; [done|]. apply window_context_sample; [|done].
  rewrite Hlen, length_slice_window in Hlt by done.
  destruct (decide (window = 0)); lia.
Qed.

(** The dictionary does not depend on the window. *)
Lemma GenerateWordDictAndSample_dict corpus window d s :
  GenerateWordDictAndSample corpus window = Some (d, s) →
  is_word_dict (split corpus) d.
Proof.
  unfold GenerateWordDictAndSample. intros Hg.
  destruct (for_each _ _ _); simplify_eq/=. apply dict_of_sorted_set.
Qed.

(** C2. For every corpus, the dictionary that [GenerateWordDictAndSample]
    returns has as keys exactly the distinct whitespace-separated tokens of
    the corpus, so that its size is the number of distinct words, and gives
    the words the ids [0 .. n-1] in their sorted order: it is an injective
    map from the words onto [{0, ..., n-1}]. *)
Theorem word_dict_sorted_ids (corpus : str) (window : Z) :
  0 ≤ window →
  ∃ d s, GenerateWordDictAndSample corpus window = Some (d, s)
    ∧ is_word_dict (split corpus) d.
Proof.
  intros Hw.
  destruct (GenerateWordDictAndSample_returns corpus window Hw) as (s & Hs & _).
  eexists _, s. split; [done|]. apply dict_of_sorted_set.
Qed.

Lemma word_dict_sorted_ids_witness :
  0 ≤ 2 ∧
  ∃ d s, GenerateWordDictAndSample
           (lit "I love natural language processing") 2 = Some (d, s)
    ∧ is_word_dict (split (lit "I love natural language processing")) d.
Proof. split; [lia|]. apply (word_dict_sorted_ids _ 2). lia. Defined.

(** C3. For every corpus with [L] tokens and every window [w >= 1] with
    [L > 2*w], [GenerateWordDictAndSample] returns exactly [L - 2*w]
    samples, and sample [k] pairs the tokens [k .. k+2*w] in position
    order, token [k+w] left out, with the center word, token [k+w]. *)
Theorem fixed_window_samples (corpus : str) (w : Z) :
  1 ≤ w → 2 * w < Z.of_nat (length (split corpus)) →
  ∃ d s, GenerateWordDictAndSample corpus w = Some (d, s)
    ∧ Z.of_nat (length s) = Z.of_nat (length (split corpus)) - 2 * w
    ∧ ∀ k, (k < length s)%nat →
        ∃ smp, s !! k = Some smp
          ∧ is_window_sample (split corpus) (Z.to_nat w) k smp.
Proof.
  intros Hw HL.
  destruct (GenerateWordDictAndSample_returns corpus w) as (s & Hs & Hlen & Hk);
    [lia|].
  eexists _, s. split; [done|]. split; [|done].
  rewrite Hlen, length_slice_window by lia.
  rewrite decide_False by lia. lia.
Qed.

Lemma fixed_window_samples_witness :
  1 ≤ 2 ∧ 2 * 2 < Z.of_nat (length (split (lit "a b c d e f g"))) ∧
  ∃ d s, GenerateWordDictAndSample (lit "a b c d e f g") 2 = Some (d, s)
    ∧ Z.of_nat (length s)
      = Z.of_nat (length (split (lit "a b c d e f g"))) - 2 * 2
    ∧ ∀ k, (k < length s)%nat →
        ∃ smp, s !! k = Some smp
          ∧ is_window_sample (split (lit "a b c d e f g")) (Z.to_nat 2) k smp.
Proof.
  split; [lia|]. split; [reflexivity|].
  apply (fixed_window_samples (lit "a b c d e f g") 2); [lia|reflexivity].
Defined.

(** C8, the claim as it is stated: the generation is total over all corpora
    and windows. It is not: for the corpus ["a"] and the window [-2] the
    slice [all_words[-2:2]] holds one word, and the center [all_words[-2]]
    is out of range. *)
Lemma negative_window_raises :
  ¬ is_Some (GenerateWordDictAndSample (lit "a") (-2)).
Proof. intros [r Hr]. vm_compute in Hr. discriminate. Qed.

(** C8, amended. The generation is total over all corpora and all windows
    that are not negative, and it returns the complete dictionary; if the
    window is 0, or the corpus has at most [2*window] tokens, the list of
    samples is empty. *)
Theorem degenerate_window_no_samples (corpus : str) (window : Z) :
  0 ≤ window →
  ∃ d s, GenerateWordDictAndSample corpus window = Some (d, s)
    ∧ is_word_dict (split corpus) d
    ∧ (window = 0 ∨ Z.of_nat (length (split corpus)) ≤ 2 * window → s = []).
Proof.
  intros Hw.
  destruct (GenerateWordDictAndSample_returns corpus window Hw)
    as (s & Hs & Hlen & _).
  eexists _, s. split; [done|]. split; [apply dict_of_sorted_set|].
  intros Hdeg. apply length_zero_iff_nil.
  rewrite Hlen, length_slice_window by done.
  destruct (decide (window = 0)); lia.
Qed.

Lemma degenerate_window_no_samples_witness :
  0 ≤ 0 ∧
  ∃ d s, GenerateWordDictAndSample (lit "a b c") 0 = Some (d, s)
    ∧ is_word_dict (split (lit "a b c")) d
    ∧ (0 = 0 ∨ Z.of_nat (length (split (lit "a b c"))) ≤ 2 * 0 → s = []).
Proof.
  split; [lia|]. apply (degenerate_window_no_samples (lit "a b c") 0). lia.
Defined.

(** ** Circuits built by loops *)

Section Append.
Context {A B : Type}.

Lemma foldl_snoc (f : A → B) xs acc :
  foldl (λ acc x, acc ++ [f x]) acc xs = acc ++ (f <$> xs).
Proof.
  revert acc. induction xs as [|x xs IH]; intros acc; simpl.
  - by rewrite app_nil_r.
  - by rewrite IH, <- app_assoc.
Qed.

Lemma foldl_snoc_if (b : A → bool) (f : A → B) xs acc :
  foldl (λ acc x, if b x then acc ++ [f x] else acc) acc xs
  = acc ++ (f <$> filter (λ x, b x = true) xs).
Proof.
  revert acc. induction xs as [|x xs IH]; intros acc; simpl.
  - by rewrite app_nil_r.
  - rewrite IH. destruct (b x) eqn:Hb.
    + rewrite filter_cons_True by done. by rewrite <- app_assoc.
    + by rewrite filter_cons_False by congruence.
Qed.

Lemma foldl_extend (f : A → list B) xs acc :
  foldl (λ acc x, acc ++ f x) acc xs = acc ++ concat (f <$> xs).
Proof.
  revert acc. induction xs as [|x xs IH]; intros acc; simpl.
  - by rewrite app_nil_r.
  - by rewrite IH, <- app_assoc.
Qed.
End Append.

Lemma with_underscore_prefix prefix : with_underscore prefix = param_prefix prefix.
Proof.
  unfold with_underscore, param_prefix.
  destruct (last prefix) as [c|] eqn:Hlast.
  - assert (prefix ≠ []) by (by intros ->).
    destruct (decide (c ≠ "_"%char)) as [Hc|Hc].
    + rewrite decide_True; [done|]. split; [done|]. congruence.
    + apply dec_stable in Hc as ->. rewrite decide_False; [done|].
      by intros [_ ?].
  - apply last_None in Hlast as ->. by rewrite decide_False by (by intros [? _]).
Qed.

Lemma GenerateEncoderCircuit_gates n_qubits prefix :
  GenerateEncoderCircuit n_qubits prefix
  = (λ i, RX {| pname := param_prefix prefix ++ str_of_int i;
                encoder := true; requires_grad := true |} i)
    <$> seqZ 0 n_qubits.
Proof.
  unfold GenerateEncoderCircuit, as_encoder, range.
  rewrite foldl_snoc, app_nil_l, <- list_fmap_compose, Z.sub_0_r.
  by rewrite with_underscore_prefix.
Qed.

(** C6. For every [n_qubits >= 0] and every prefix, the circuit of
    [GenerateEncoderCircuit] has exactly [n_qubits] gates, and gate [i] is
    an RX rotation on qubit [i] whose parameter is named [p + str(i)],
    where [p] is the prefix with ['_'] appended if and only if the prefix
    is not empty and does not already end in ['_']. *)
Theorem encoder_circuit_gates (n_qubits : Z) (prefix : str) :
  0 ≤ n_qubits →
  Z.of_nat (length (GenerateEncoderCircuit n_qubits prefix)) = n_qubits
  ∧ ∀ i, 0 ≤ i < n_qubits →
      ∃ p, GenerateEncoderCircuit n_qubits prefix !! Z.to_nat i = Some (RX p i)
        ∧ pname p = param_prefix prefix ++ str_of_int i
        ∧ encoder p = true.
Proof.
  intros Hn. rewrite GenerateEncoderCircuit_gates. split.
  - rewrite length_fmap, length_seqZ. lia.
  - intros i Hi. eexists. rewrite list_lookup_fmap, lookup_seqZ_lt by lia.
    simpl. rewrite Z2Nat.id by lia. done.
Qed.

Lemma encoder_circuit_gates_witness :
  0 ≤ 3 ∧ param_prefix (lit "e") = lit "e_"
  ∧ param_prefix (lit "e_") = lit "e_" ∧ param_prefix [] = []
  ∧ Z.of_nat (length (GenerateEncoderCircuit 3 (lit "e"))) = 3
  ∧ ∀ i, 0 ≤ i < 3 →
      ∃ p, GenerateEncoderCircuit 3 (lit "e") !! Z.to_nat i = Some (RX p i)
        ∧ pname p = param_prefix (lit "e") ++ str_of_int i
        ∧ encoder p = true.
Proof.
  split; [lia|]. do 3 (split; [reflexivity|]).
  apply (encoder_circuit_gates 3 (lit "e")). lia.
Defined.

Section Ansatz.

Lemma filter_none {A} (P : A → Prop) `{!∀ x, Decision (P x)} (l : list A) :
  Forall (λ x, ¬ P x) l → filter P l = [].
Proof.
  induction 1 as [|x l Hx _ IH]; [done|].
  by rewrite filter_cons_False, IH.
Qed.

Lemma filter_fmap {A B} (f : A → B) (P : B → Prop) `{!∀ x, Decision (P x)}
    (l : list A) :
  filter P (f <$> l) = f <$> filter (λ x, P (f x)) l.
Proof.
  induction l as [|x l IH]; [done|]. rewrite fmap_cons, !filter_cons.
  destruct (decide (P (f x))); by rewrite IH.
Qed.

Lemma filter_seqZ_lt (c n : Z) :
  c ≤ n → filter (λ k, k < c) (seqZ 0 n) = seqZ 0 c.
Proof.
  intros Hc. destruct (decide (0 ≤ c)) as [Hc0|Hc0].
  - replace n with (c + (n - c)) by lia.
    rewrite seqZ_app, filter_app by lia.
    rewrite filter_all by (apply Forall_forall; intros k ?%elem_of_seqZ; lia).
    rewrite filter_none
      by (apply Forall_forall; intros k ?%elem_of_seqZ; lia).
    by rewrite app_nil_r.
  - rewrite (seqZ_nil 0 c) by lia.
    apply filter_none, Forall_forall. intros k ?%elem_of_seqZ. lia.
Qed.

(** The qubits on which the second loop of a layer places a CNOT. *)
Lemma cnot_controls (n r : Z) :
  0 ≤ r < 2 →
  filter (λ i, (i <? n) && (i + 1 <? n) = true) (range_step r n 2)
  = (λ j, r + 2 * j) <$> seqZ 0 ((n - r) `div` 2).
Proof.
  intros Hr. unfold range_step. rewrite filter_fmap. f_equal.
  set (cnt := if r <? n then _ else _).
  assert (Hcnt : (n - r) `div` 2 ≤ cnt).
  { unfold cnt. destruct (Z.ltb_spec r n);
      Z.to_euclidean_division_equations; lia. }
  rewrite <- (filter_seqZ_lt _ cnt Hcnt).
  apply list_filter_iff. intros k.
  rewrite andb_true_iff, !Z.ltb_lt.
  Z.to_euclidean_division_equations. lia.
Qed.

Lemma ansatz_layer_gates n_qubits p circ l :
  ansatz_layer n_qubits p circ l = circ ++ layer_gates n_qubits p l.
Proof.
  unfold ansatz_layer, layer_gates, ry_gates, cnot_gates, range, fresh.
  rewrite foldl_snoc, foldl_snoc_if, Z.sub_0_r, <- app_assoc.
  do 2 f_equal.
  rewrite cnot_controls by (apply Z.mod_pos_bound; lia).
  rewrite <- list_fmap_compose. apply list_fmap_ext.
  intros _ j _. simpl. f_equal.
Qed.
End Ansatz.

Lemma as_ansatz_id (c : Circuit) :
  Forall (λ g, ∀ p, gate_param g = Some p → encoder p = false) c →
  as_ansatz c = c.
Proof.
  intros Hc. unfold as_ansatz. rewrite <- (list_fmap_id c) at 2.
  apply list_fmap_ext. intros _ g Hg%list_elem_of_lookup_2.
  eapply Forall_forall in Hc; [|done].
  destruct g as [p q|p q| |]; simpl in *; try done.
  - specialize (Hc p eq_refl). destruct p; simpl in *. by subst.
  - specialize (Hc p eq_refl). destruct p; simpl in *. by subst.
Qed.

Lemma layer_gates_ansatz n_qubits p l :
  Forall (λ g, ∀ p, gate_param g = Some p → encoder p = false)
         (layer_gates n_qubits p l).
Proof.
  apply Forall_app. split; apply Forall_fmap, Forall_forall; intros i _ prm;
    simpl; [|done].
  by intros [= <-].
Qed.

Lemma foldl_ext {A B} (f g : B → A → B) xs acc :
  (∀ acc x, f acc x = g acc x) → foldl f acc xs = foldl g acc xs.
Proof.
  intros Hfg. revert acc. induction xs as [|x xs IH]; intros acc; simpl;
    [done|].
  by rewrite Hfg, IH.
Qed.

Lemma GenerateAnsatzCircuit_layers n_qubits layers prefix :
  GenerateAnsatzCircuit n_qubits layers prefix
  = concat (layer_gates n_qubits (param_prefix prefix) <$> seqZ 0 layers).
Proof.
  unfold GenerateAnsatzCircuit, range.
  rewrite (foldl_ext _ (λ circ l,
             circ ++ layer_gates n_qubits (with_underscore prefix) l))
    by (intros; apply ansatz_layer_gates).
  rewrite foldl_extend, app_nil_l, Z.sub_0_r, with_underscore_prefix.
  apply as_ansatz_id, Forall_concat, Forall_fmap, Forall_forall.
  intros l _. apply layer_gates_ansatz.
Qed.

(** C7, the claim as it is stated: every layer holds
    [floor((n_qubits - l % 2) / 2)] CNOT gates. On no qubits the layer 1
    holds no gate, and the formula gives [-1]. *)
Lemma ansatz_no_qubits_odd_layer :
  GenerateAnsatzCircuit 0 2 (lit "a") = []
  ∧ Z.of_nat (length (filter (λ g, is_cnot g = true)
                             (ansatz_layer 0 (lit "a_") [] 1)))
    ≠ (0 - 1 `mod` 2) `div` 2.
Proof. split; [reflexivity|]. vm_compute. discriminate. Qed.

(** C7, amended. For every [n_qubits >= 0], [layers >= 0] and prefix, the
    circuit of [GenerateAnsatzCircuit] is built layer by layer: layer [l]
    is one RY gate on each qubit [i], its parameter named
    [p + str(l) + '_' + str(i)], followed by the CNOT gates [X(i + 1, i)]
    for [i = l % 2, l % 2 + 2, ...] as long as [i + 1 < n_qubits]. A layer
    has [n_qubits] RY gates and [max(0, floor((n_qubits - l % 2) / 2))]
    CNOT gates, which is [floor((n_qubits - l % 2) / 2)] when there is at
    least one qubit. *)
Theorem ansatz_circuit_layers (n_qubits layers : Z) (prefix : str) :
  0 ≤ n_qubits → 0 ≤ layers →
  let p := param_prefix prefix in
  GenerateAnsatzCircuit n_qubits layers prefix
  = concat ((λ l, ry_gates n_qubits p l ++ cnot_gates n_qubits l)
            <$> seqZ 0 layers)
  ∧ ∀ l, 0 ≤ l < layers →
      Z.of_nat (length (ry_gates n_qubits p l)) = n_qubits
      ∧ (∀ i, 0 ≤ i < n_qubits →
           ∃ prm, ry_gates n_qubits p l !! Z.to_nat i = Some (RY prm i)
             ∧ pname prm = p ++ str_of_int l ++ lit "_" ++ str_of_int i)
      ∧ Z.of_nat (length (cnot_gates n_qubits l))
        = Z.max 0 ((n_qubits - l `mod` 2) `div` 2)
      ∧ (1 ≤ n_qubits →
           Z.of_nat (length (cnot_gates n_qubits l))
           = (n_qubits - l `mod` 2) `div` 2)
      ∧ (∀ j, 0 ≤ j → l `mod` 2 + 2 * j + 1 < n_qubits →
           cnot_gates n_qubits l !! Z.to_nat j
           = Some (X (l `mod` 2 + 2 * j + 1) (l `mod` 2 + 2 * j)))
      ∧ Forall (λ g, ∃ i, g = X (i + 1) i ∧ 0 ≤ i ∧ i + 1 < n_qubits
                          ∧ i `mod` 2 = l `mod` 2)
               (cnot_gates n_qubits l).
Proof.
  intros Hn Hl p. split; [apply GenerateAnsatzCircuit_layers|].
  intros l Hlt. unfold ry_gates, cnot_gates.
  rewrite !length_fmap, !length_seqZ.
  split; [lia|]. split.
  { intros i Hi. eexists. rewrite list_lookup_fmap, lookup_seqZ_lt by lia.
    simpl. by rewrite Z2Nat.id by lia. }
  split; [lia|]. split.
  { intros H1. Z.to_euclidean_division_equations. lia. }
  split.
  - intros j Hj Hjn. rewrite list_lookup_fmap, lookup_seqZ_lt.
    + simpl. by rewrite Z2Nat.id by lia.
    + rewrite Z2Nat.id by lia. Z.to_euclidean_division_equations. lia.
  - apply Forall_fmap, Forall_forall. intros j [Hj0 Hj]%elem_of_seqZ. simpl.
    exists (l `mod` 2 + 2 * j). split; [done|].
    Z.to_euclidean_division_equations. lia.
Qed.

Lemma ansatz_circuit_layers_witness :
  0 ≤ 5 ∧ 0 ≤ 2 ∧
  cnot_gates 5 0 = [X 1 0; X 3 2] ∧ cnot_gates 5 1 = [X 2 1; X 4 3] ∧
  GenerateAnsatzCircuit 5 2 (lit "a")
  = concat ((λ l, ry_gates 5 (param_prefix (lit "a")) l ++ cnot_gates 5 l)
            <$> seqZ 0 2).
Proof.
  split; [lia|]. split; [lia|]. do 2 (split; [reflexivity|]).
  apply (ansatz_circuit_layers 5 2 (lit "a")); lia.
Defined.

(** ** The embedding layer *)

Lemma qe_loop_circ n_qubits layers ws st :
  st_circ (foldl (qe_step n_qubits layers) st ws)
  = st_circ st ++ concat (qe_block n_qubits layers <$> ws).
Proof.
  revert st. induction ws as [|w ws IH]; intros st; simpl.
  - by rewrite app_nil_r.
  - rewrite IH. unfold qe_block at 2. simpl. by rewrite <- !app_assoc.
Qed.

(** The lists of parameter names that the loop collects do not reach the
    circuit. *)
Lemma qe_loop_names_unused n_qubits layers ws c names1 names2 names1' names2' :
  st_circ (foldl (qe_step n_qubits layers) (QeState c names1 names2) ws)
  = st_circ (foldl (qe_step n_qubits layers) (QeState c names1' names2') ws).
Proof. by rewrite !qe_loop_circ. Qed.



(** ** The measured Hamiltonians *)

Section Decimal.

Lemma lit_inj s t : lit s = lit t → s = t.
Proof.
  unfold lit. intros Heq.
  by rewrite <- (string_of_list_ascii_of_string s), Heq,
             string_of_list_ascii_of_string.
Qed.

(** [str] is injective: a decimal numeral denotes one integer. *)
Global Instance str_of_int_inj : Inj (=) (=) str_of_int.
Proof.
  intros x y Heq%lit_inj.
  apply (f_equal NilEmpty.int_of_string) in Heq.
  rewrite !NilEmpty.isi in Heq. simplify_eq.
  by rewrite <- (DecimalZ.of_to x), <- (DecimalZ.of_to y), Heq.
Qed.

Lemma string_of_uint_no_space d :
  Forall (λ c, is_space c = false) (lit (NilEmpty.string_of_uint d)).
Proof. induction d; simpl; by constructor. Qed.

(** A decimal numeral holds no whitespace. *)
Lemma str_of_int_no_space z :
  Forall (λ c, is_space c = false) (str_of_int z).
Proof.
  unfold str_of_int. destruct (Z.to_int z) as [d|d]; simpl.
  - apply string_of_uint_no_space.
  - constructor; [done|]. apply string_of_uint_no_space.
Qed.
End Decimal.

Section Keys.

Lemma ham_loop (bs : list bool) (k : nat) (acc : str) :
  foldl (λ s (jk : nat * ascii),
      if decide (jk.2 = "1"%char)
      then s ++ lit "Z" ++ str_of_int (Z.of_nat jk.1) ++ lit " " else s)
    acc (imap (λ j c, ((k + j)%nat, c)) (bit_char <$> bs))
  = acc ++ concat (ham_term_sp <$> true_positions k bs).
Proof.
  revert k acc. induction bs as [|b bs IH]; intros k acc.
  - simpl. by rewrite app_nil_r.
  - rewrite fmap_cons, imap_cons. cbn [foldl fst snd].
    rewrite (imap_ext _ (λ j c, ((S k + j)%nat, c)))
      by (intros; cbn; f_equal; lia).
    rewrite IH, Nat.add_0_r. destruct b; simpl.
    + rewrite <- app_assoc. f_equal.
    + done.
Qed.

Lemma ham_string_terms i :
  0 ≤ i → ham_string i = concat (ham_term_sp <$> ham_qubits i).
Proof.
  intros Hi. unfold ham_string, ham_qubits, enumerate.
  rewrite slice_rev_bin by lia.
  by rewrite (ham_loop _ 0 []).
Qed.

Lemma elem_of_true_positions k bs j :
  j ∈ true_positions k bs ↔ (k ≤ j)%nat ∧ bs !! (j - k)%nat = Some true.
Proof.
  revert k. induction bs as [|b bs IH]; intros k; simpl.
  - rewrite elem_of_nil, lookup_nil. split; [done|by intros [_ ?]].
  - rewrite elem_of_app, IH. split.
    + intros [Hj|[Hk Hj]].
      * destruct b; [|by apply elem_of_nil in Hj].
        apply list_elem_of_singleton in Hj as ->.
        by rewrite Nat.sub_diag.
      * split; [lia|]. by replace (j - k)%nat with (S (j - S k)) by lia.
    + intros [Hk Hj]. destruct (decide (j = k)) as [->|Hne].
      * rewrite Nat.sub_diag in Hj. simplify_eq/=. left.
        by apply list_elem_of_singleton.
      * right. split; [lia|].
        by replace (j - k)%nat with (S (j - S k)) in Hj by lia.
Qed.

Lemma true_positions_sorted k bs : StronglySorted lt (true_positions k bs).
Proof.
  revert k. induction bs as [|b bs IH]; intros k; simpl; [constructor|].
  destruct b; simpl; [|done]. constructor; [done|].
  apply Forall_forall. intros j [Hj _]%elem_of_true_positions. lia.
Qed.

Lemma ham_qubits_set_bits i : 0 ≤ i → is_set_bits (i + 1) (ham_qubits i).
Proof.
  intros Hi. split; [apply true_positions_sorted|].
  intros j. unfold ham_qubits. rewrite elem_of_true_positions, Nat.sub_0_r.
  split.
  - intros [_ Hj]. symmetry. apply lsb_bits_testbit; [lia|done].
  - intros Hj. split; [lia|].
    destruct (lsb_bits (i + 1) !! j) as [b|] eqn:Hb.
    + apply lsb_bits_testbit in Hb; [|lia]. congruence.
    + apply lookup_ge_None in Hb.
      rewrite testbit_above_lsb_bits in Hj by lia. done.
Qed.
End Keys.

Section KeyShape.

Lemma ham_term_no_space j : Forall (λ c, is_space c = false) (ham_term j).
Proof. constructor; [done|]. apply str_of_int_no_space. Qed.

Lemma join_space_cons x l :
  l ≠ [] → join_space (x :: l) = x ++ lit " " ++ join_space l.
Proof. by destruct l. Qed.

Lemma concat_terms_join js :
  js ≠ [] →
  concat (ham_term_sp <$> js) = join_space (ham_term <$> js) ++ lit " ".
Proof.
  induction js as [|j js IH]; [done|]. intros _.
  destruct js as [|j' js].
  - simpl. by rewrite app_nil_r.
  - rewrite !(fmap_cons _ j). cbn [concat]. rewrite IH by done.
    rewrite join_space_cons by done.
    unfold ham_term_sp. by rewrite <- !app_assoc.
Qed.

(** A key that is not empty begins with ['Z'] and does not end in
    whitespace. *)
Lemma join_terms_shape js :
  js ≠ [] →
  ∃ t c, join_space (ham_term <$> js) = "Z"%char :: t
       ∧ last (join_space (ham_term <$> js)) = Some c
       ∧ is_space c = false.
Proof.
  induction js as [|j js IH]; [done|]. intros _.
  destruct js as [|j' js].
  - simpl. exists (str_of_int (Z.of_nat j)).
    destruct (last (ham_term j)) as [c|] eqn:Hc; [|by apply last_None in Hc].
    exists c. split; [done|]. split; [done|].
    pose proof (ham_term_no_space j) as Hall.
    apply last_Some in Hc as [t' Ht']. rewrite Ht' in Hall.
    by apply Forall_app in Hall as [_ [? _]%Forall_cons].
  - destruct IH as (t & c & Ht & Hc & Hsp); [done|].
    rewrite (fmap_cons _ j), join_space_cons by done.
    eexists _, c. split; [done|]. split; [|done].
    by rewrite !last_app, Hc.
Qed.

Lemma lstrip_keep c s : is_space c = false → lstrip (c :: s) = c :: s.
Proof. intros Hc. simpl. by rewrite Hc. Qed.

Lemma lstrip_drop c s : is_space c = true → lstrip (c :: s) = lstrip s.
Proof. intros Hc. simpl. by rewrite Hc. Qed.

(** [strip] takes one trailing space off a string that neither begins
    nor ends with whitespace. *)
Lemma strip_trailing_space (t t0 t1 : str) c0 c1 :
  t = c0 :: t0 → is_space c0 = false →
  t = t1 ++ [c1] → is_space c1 = false →
  strip (t ++ [" "%char]) = t.
Proof.
  intros Ht0 Hc0 Ht1 Hc1. unfold strip.
  rewrite Ht0 at 1. rewrite <- app_comm_cons, lstrip_keep by done.
  rewrite app_comm_cons, <- Ht0.
  rewrite rev_app_distr. cbn [rev app]. rewrite lstrip_drop by done.
  rewrite Ht1 at 1. rewrite rev_app_distr. cbn [rev app].
  rewrite lstrip_keep by done.
  change (c1 :: rev t1) with (rev [c1] ++ rev t1).
  by rewrite <- rev_app_distr, rev_involutive.
Qed.

Lemma strip_terms js :
  strip (concat (ham_term_sp <$> js)) = join_space (ham_term <$> js).
Proof.
  destruct (decide (js = [])) as [->|Hne]; [done|].
  rewrite concat_terms_join by done.
  destruct (join_terms_shape js Hne) as (t & c & Ht & Hc & Hsp).
  apply last_Some in Hc as [t' Ht'].
  by eapply (strip_trailing_space _ t t' "Z"%char c).
Qed.

Lemma ham_key_join i :
  0 ≤ i → ham_key i = join_space (ham_term <$> ham_qubits i).
Proof.
  intros Hi. unfold ham_key. by rewrite ham_string_terms, strip_terms.
Qed.

Lemma app_space_inj (a a' r r' : str) :
  Forall (λ c, is_space c = false) a →
  Forall (λ c, is_space c = false) a' →
  a ++ " "%char :: r = a' ++ " "%char :: r' → a = a' ∧ r = r'.
Proof.
  intros Ha. revert a'. induction Ha as [|c a Hc Ha IH]; intros a' Ha' Heq.
  - destruct Ha' as [|c' a' Hc' Ha']; simplify_eq/=; done.
  - destruct Ha' as [|c' a' Hc' Ha']; simplify_eq/=.
    destruct (IH a' Ha') as [-> ->]; done.
Qed.

Lemma concat_terms_inj js js' :
  concat (ham_term_sp <$> js) = concat (ham_term_sp <$> js') → js = js'.
Proof.
  revert js'. induction js as [|j js IH]; intros [|j' js'] Heq;
    try done.
  rewrite !fmap_cons in Heq. cbn [concat] in Heq.
  unfold ham_term_sp at 1 3 in Heq. rewrite <- !app_assoc in Heq.
  apply app_space_inj in Heq as [Hj Hjs]; [|apply ham_term_no_space..].
  unfold ham_term in Hj. simplify_eq/=.
  f_equal. by apply IH.
Qed.

Lemma join_terms_inj js js' :
  join_space (ham_term <$> js) = join_space (ham_term <$> js') → js = js'.
Proof.
  intros Heq. apply concat_terms_inj.
  destruct (decide (js = [])) as [->|Hne];
    destruct (decide (js' = [])) as [->|Hne']; [done| | |].
  - destruct (join_terms_shape js' Hne') as (? & ? & Ht & _).
    by rewrite Ht in Heq.
  - destruct (join_terms_shape js Hne) as (? & ? & Ht & _).
    by rewrite Ht in Heq.
  - by rewrite !concat_terms_join, Heq.
Qed.

Lemma sum_pow2_true_positions k bs :
  sum_pow2 (true_positions k bs) = decode_bits bs * 2 ^ Z.of_nat k.
Proof.
  revert k. induction bs as [|b bs IH]; intros k; simpl; [done|].
  unfold sum_pow2 in *. rewrite foldr_app, IH.
  rewrite Nat2Z.inj_succ, Z.pow_succ_r by lia.
  destruct b; simpl; lia.
Qed.

Lemma ham_qubits_inj i i' :
  0 ≤ i → 0 ≤ i' → ham_qubits i = ham_qubits i' → i = i'.
Proof.
  intros Hi Hi' Heq. apply (f_equal sum_pow2) in Heq.
  unfold ham_qubits in Heq.
  rewrite !sum_pow2_true_positions, !decode_lsb_bits in Heq by lia. lia.
Qed.

Lemma ham_key_inj i i' : 0 ≤ i → 0 ≤ i' → ham_key i = ham_key i' → i = i'.
Proof.
  intros Hi Hi'. rewrite !ham_key_join by done.
  intros Heq%join_terms_inj. by apply ham_qubits_inj.
Qed.
End KeyShape.

Section Hamiltonian.

Lemma sorted_lt_NoDup (l : list nat) : StronglySorted lt l → NoDup l.
Proof.
  induction 1 as [|x l _ IH Hall]; constructor; [|done].
  intros Hx. eapply Forall_forall in Hall; [|done]. lia.
Qed.

(** A loop that stores one constant under a key per item. *)
Lemma foldl_insert_lookup {A} (key : A → str) (c : Q) (xs : list A)
    (m0 : gmap str Q) (k : str) :
  foldl (λ m x, <[key x := c]> m) m0 xs !! k
  = if decide (k ∈ key <$> xs) then Some c else m0 !! k.
Proof.
  revert m0. induction xs as [|x xs IH]; intros m0; simpl.
  - done.
  - rewrite IH. destruct (decide (k ∈ key <$> xs)) as [Hin|Hnin].
    + rewrite decide_True; [done|]. by right.
    + destruct (decide (key x = k)) as [<-|Hne].
      * rewrite decide_True by left. apply lookup_insert_eq.
      * rewrite decide_False, lookup_insert_ne; [done..|].
        by intros [?|?]%elem_of_cons.
Qed.

Lemma GenerateEmbeddingHamiltonian_lookup dims n_qubits k :
  GenerateEmbeddingHamiltonian dims n_qubits !! k
  = if decide (k ∈ ham_key <$> seqZ 0 dims) then Some 1%Q else None.
Proof.
  unfold GenerateEmbeddingHamiltonian, range.
  rewrite Z.sub_0_r. apply (foldl_insert_lookup ham_key).
Qed.

Lemma NoDup_ham_keys dims : NoDup (ham_key <$> seqZ 0 dims).
Proof.
  apply NoDup_fmap_2_strong; [|apply NoDup_seqZ].
  intros i i' Hi%elem_of_seqZ Hi'%elem_of_seqZ. apply ham_key_inj; lia.
Qed.

Lemma GenerateEmbeddingHamiltonian_size dims n_qubits :
  size (GenerateEmbeddingHamiltonian dims n_qubits) = Z.to_nat dims.
Proof.
  rewrite <- size_dom.
  replace (dom (GenerateEmbeddingHamiltonian dims n_qubits))
    with (list_to_set (ham_key <$> seqZ 0 dims) : gset str).
  - rewrite size_list_to_set by apply NoDup_ham_keys.
    by rewrite length_fmap, length_seqZ.
  - apply set_eq. intros k.
    rewrite elem_of_list_to_set, elem_of_dom,
            GenerateEmbeddingHamiltonian_lookup.
    destruct (decide _); split; done.
Qed.
End Hamiltonian.

(** C5. For every [dims >= 0], [GenerateEmbeddingHamiltonian] returns a
    mapping with exactly [dims] entries, all of value 1.0; the key for the
    index [i] joins with spaces the terms ['Z' + str(j)] of the set bits
    [j] of [i + 1], least significant first; different indices have
    different keys, so that no entry replaces another. *)
Theorem hamiltonian_entries (dims n_qubits : Z) :
  0 ≤ dims →
  size (GenerateEmbeddingHamiltonian dims n_qubits) = Z.to_nat dims
  ∧ (∀ k v, GenerateEmbeddingHamiltonian dims n_qubits !! k = Some v →
       v = 1%Q ∧ ∃ i, 0 ≤ i < dims ∧ k = ham_key i)
  ∧ (∀ i, 0 ≤ i < dims →
       GenerateEmbeddingHamiltonian dims n_qubits !! ham_key i = Some 1%Q
       ∧ ham_key i = join_space (ham_term <$> ham_qubits i)
       ∧ is_set_bits (i + 1) (ham_qubits i))
  ∧ (∀ i i', 0 ≤ i < dims → 0 ≤ i' < dims → ham_key i = ham_key i' → i = i').
Proof.
  intros Hd. split; [apply GenerateEmbeddingHamiltonian_size|].
  split; [|split].
  - intros k v. rewrite GenerateEmbeddingHamiltonian_lookup.
    destruct (decide _) as [Hin|]; [|done]. intros [= <-]. split; [done|].
    apply list_elem_of_fmap in Hin as (i & -> & Hi%elem_of_seqZ).
    exists i. split; [lia|done].
  - intros i Hi. rewrite GenerateEmbeddingHamiltonian_lookup.
    rewrite decide_True
      by (apply list_elem_of_fmap_2, elem_of_seqZ; lia).
    split; [done|]. split; [apply ham_key_join; lia|].
    apply ham_qubits_set_bits; lia.
  - intros i i' Hi Hi'. apply ham_key_inj; lia.
Qed.

Lemma hamiltonian_entries_witness :
  0 ≤ 5 ∧
  ham_key <$> seqZ 0 5
  = [lit "Z0"; lit "Z1"; lit "Z0 Z1"; lit "Z2"; lit "Z0 Z2"] ∧
  size (GenerateEmbeddingHamiltonian 5 5) = Z.to_nat 5.
Proof.
  split; [lia|]. split; [reflexivity|].
  apply (hamiltonian_entries 5 5). lia.
Defined.

(** C9. The result of [GenerateEmbeddingHamiltonian] does not depend on
    [n_qubits]; when [dims >= 2^n_qubits] its keys name qubits of index
    [n_qubits] and above (the key ['Z' + str(n_qubits)] is one of them, and
    so does the key of every index from [2^n_qubits - 1] on): nothing
    checks the qubits of a key against the number of qubits. *)
Theorem hamiltonian_ignores_n_qubits (dims n1 n2 : Z) :
  GenerateEmbeddingHamiltonian dims n1 = GenerateEmbeddingHamiltonian dims n2
  ∧ (0 ≤ n1 → 2 ^ n1 ≤ dims →
       GenerateEmbeddingHamiltonian dims n1
         !! (lit "Z" ++ str_of_int n1) = Some 1%Q
       ∧ ∀ i, 2 ^ n1 - 1 ≤ i < dims →
           GenerateEmbeddingHamiltonian dims n1 !! ham_key i = Some 1%Q
           ∧ ham_key i = join_space (ham_term <$> ham_qubits i)
           ∧ ∃ j, j ∈ ham_qubits i ∧ n1 ≤ Z.of_nat j).
Proof.
  split; [done|]. intros Hn Hdims.
  assert (Hpow : 0 < 2 ^ n1) by (apply Z.pow_pos_nonneg; lia).
  assert (Hin : ∀ i, 0 ≤ i < dims →
            GenerateEmbeddingHamiltonian dims n1 !! ham_key i = Some 1%Q).
  { intros i Hi. rewrite GenerateEmbeddingHamiltonian_lookup.
    by rewrite decide_True by (apply list_elem_of_fmap_2, elem_of_seqZ; lia). }
  split.
  - replace (lit "Z" ++ str_of_int n1) with (ham_key (2 ^ n1 - 1));
      [apply Hin; lia|].
    rewrite ham_key_join by lia.
    assert (Hq : ham_qubits (2 ^ n1 - 1) = [Z.to_nat n1]).
    { destruct (ham_qubits_set_bits (2 ^ n1 - 1) ltac:(lia)) as [Hs Hbits].
      apply Permutation_singleton_r, NoDup_Permutation.
      - by apply sorted_lt_NoDup.
      - apply NoDup_singleton.
      - intros j. rewrite Hbits, list_elem_of_singleton.
        replace (2 ^ n1 - 1 + 1) with (2 ^ n1) by lia.
        rewrite Z.pow2_bits_eqb, Z.eqb_eq by lia. lia. }
    rewrite Hq. simpl. unfold ham_term. by rewrite Z2Nat.id.
  - intros i Hi. split; [apply Hin; lia|].
    split; [apply ham_key_join; lia|].
    destruct (ham_qubits_set_bits i ltac:(lia)) as [_ Hbits].
    exists (Z.to_nat (Z.log2 (i + 1))).
    pose proof (Z.log2_nonneg (i + 1)).
    rewrite Hbits, Z2Nat.id by done. split.
    + apply Z.bit_log2. lia.
    + apply Z.log2_le_pow2; lia.
Qed.

Lemma hamiltonian_ignores_n_qubits_witness :
  0 ≤ 2 ∧ 2 ^ 2 ≤ 5 ∧
  GenerateEmbeddingHamiltonian 5 2 = GenerateEmbeddingHamiltonian 5 7 ∧
  GenerateEmbeddingHamiltonian 5 2 !! (lit "Z" ++ str_of_int 2) = Some 1%Q.
Proof.
  split; [lia|]. split; [by vm_compute|].
  destruct (hamiltonian_ignores_n_qubits 5 2 7) as [Heq Hkeys].
  split; [exact Heq|]. apply Hkeys; [lia|by vm_compute].
Defined.

(** ** The training data *)

Section TrainData.

Lemma extend_last_snoc {A} (rows : list (list A)) r xs :
  extend_last (rows ++ [r]) xs = Some (rows ++ [r ++ xs]).
Proof.
  unfold extend_last. destruct (rows ++ [r]) eqn:Heq.
  { by destruct rows. }
  rewrite <- Heq, length_app. simpl.
  replace (length rows + 1 - 1)%nat with (length rows + 0)%nat by lia.
  by rewrite alter_app_r.
Qed.

Lemma word_step_angles word_dict n_qubits word rows r :
  word_step word_dict n_qubits word (rows ++ [r])
  = a ← word_angles word_dict n_qubits word; Some (rows ++ [r ++ a]).
Proof.
  unfold word_step, word_angles.
  destruct (word_dict !! word) as [label|]; simpl; [|done].
  destruct (label_array _) as [a|]; simpl; [|done].
  apply extend_last_snoc.
Qed.

Lemma words_loop word_dict n_qubits around rows r :
  for_each around (word_step word_dict n_qubits) (rows ++ [r])
  = rs ← mapM (word_angles word_dict n_qubits) around;
    Some (rows ++ [r ++ concat rs]).
Proof.
  revert r. induction around as [|word around IH]; intros r; simpl.
  - by rewrite app_nil_r.
  - rewrite word_step_angles.
    destruct (word_angles _ _ word) as [a|]; simpl; [|done].
    rewrite IH.
    destruct (mapM _ around) as [rs|]; simpl; [|done].
    by rewrite <- app_assoc.
Qed.

Lemma sample_step_data word_dict n_qubits s data :
  sample_step word_dict n_qubits s data
  = rd ← sample_data word_dict n_qubits s;
    Some (data.1 ++ [rd.1], data.2 ++ [rd.2]).
Proof.
  destruct s as [around center]. unfold sample_step, sample_data.
  rewrite words_loop. cbn [fst snd].
  destruct (mapM _ around) as [rs|]; simpl; [|done].
  by destruct (word_dict !! center).
Qed.

Lemma samples_loop word_dict n_qubits sample data :
  for_each sample (sample_step word_dict n_qubits) data
  = rds ← mapM (sample_data word_dict n_qubits) sample;
    Some (data.1 ++ rds.*1, data.2 ++ rds.*2).
Proof.
  revert data. induction sample as [|s sample IH]; intros data; simpl.
  - rewrite !app_nil_r. by destruct data.
  - rewrite sample_step_data.
    destruct (sample_data _ _ s) as [rd|]; simpl; [|done].
    rewrite IH. destruct (mapM _ sample) as [rds|]; simpl; [|done].
    by rewrite <- !app_assoc.
Qed.

Lemma np_array2_Some {A} (rows rows' : list (list A)) :
  np_array2 rows = Some rows' → rows' = rows.
Proof.
  unfold np_array2. destruct rows; [by intros [= <-]|].
  destruct (forallb _ _); by intros [= <-].
Qed.

Lemma max_of_ge l m x : max_of l = Some m → x ∈ l → (x ≤ m)%nat.
Proof.
  destruct l as [|y l]; [done|]. simpl. intros [= <-].
  assert (Hfold : ∀ l a, (a ≤ foldl Nat.max a l)%nat
                         ∧ ∀ x, x ∈ l → (x ≤ foldl Nat.max a l)%nat).
  { clear. induction l as [|z l IH]; intros a; simpl.
    - split; [done|]. by intros x ?%elem_of_nil.
    - destruct (IH (a `max` z)%nat) as [IH1 IH2]. split; [lia|].
      intros x [->|Hx]%elem_of_cons; [lia|by apply IH2]. }
  destruct (Hfold l y) as [H1 H2].
  intros [->|Hx]%elem_of_cons; [done|by apply H2].
Qed.

(** The ids of a dictionary do not exceed its maximum. *)
Lemma max_id_ge (word_dict : gmap str nat) m word id :
  max_of (map_to_list word_dict).*2 = Some m →
  word_dict !! word = Some id → (id ≤ m)%nat.
Proof.
  intros Hm Hid. eapply max_of_ge; [done|].
  apply list_elem_of_fmap. exists (word, id). split; [done|].
  by apply elem_of_map_to_list.
Qed.

(** The angles of a word whose id fits in [n_qubits >= 1] bits. *)
Lemma word_angles_bits (word_dict : gmap str nat) n_qubits word id a :
  1 ≤ n_qubits → Z.of_nat id < 2 ^ n_qubits →
  word_dict !! word = Some id →
  word_angles word_dict n_qubits word = Some a →
  Z.of_nat (length a) = n_qubits
  ∧ ∀ j : nat, Z.of_nat j < n_qubits →
      a !! j = Some (angle_of_bit (Z.testbit (Z.of_nat id) (Z.of_nat j))).
Proof.
  intros Hn Hid Hw. unfold word_angles. rewrite Hw. simpl.
  pose proof (length_label_bin (Z.of_nat id) n_qubits ltac:(lia) Hid Hn)
    as Hlen.
  pose proof (label_bin_lookup (Z.of_nat id) n_qubits) as Hlk.
  rewrite (label_bin_bits (Z.of_nat id)) in Hlen, Hlk |- * by lia.
  set (bs := lsb_bits (Z.of_nat id) ++ _) in *.
  rewrite label_array_bits. intros [= <-].
  rewrite length_fmap in Hlen. rewrite length_fmap. split; [done|].
  intros j Hj.
  destruct (lookup_lt_is_Some_2 bs j) as [b Hb]; [lia|].
  rewrite list_lookup_fmap, Hb. simpl. do 2 f_equal.
  specialize (Hlk j (bit_char b) ltac:(lia)).
  rewrite list_lookup_fmap, Hb in Hlk. specialize (Hlk eq_refl).
  by destruct b, (Z.testbit _ _).
Qed.
End TrainData.

Section Rows.

(** The row of a sample concatenates blocks of one length. *)
Lemma concat_uniform {A} (n : nat) (rows : list (list A)) :
  Forall (λ a, length a = n) rows →
  length (concat rows) = (length rows * n)%nat
  ∧ ∀ w j a, rows !! w = Some a → (j < n)%nat →
      concat rows !! (n * w + j)%nat = a !! j.
Proof.
  induction 1 as [|a0 rows Ha0 _ [IHlen IHlk]]; simpl.
  - split; [done|]. intros w j a Hw. by rewrite lookup_nil in Hw.
  - split; [rewrite length_app; lia|].
    intros [|w] j a Hw Hj; simplify_eq/=.
    + rewrite Nat.mul_0_r. by rewrite lookup_app_l by lia.
    + rewrite lookup_app_r by lia.
      replace (length a0 * S w + j - length a0)%nat
        with (length a0 * w + j)%nat by lia.
      by apply IHlk.
Qed.

(** The width of the code of a word: [n_qubits] characters, but one
    when [n_qubits] is 0, since [bin(0)] has one digit and [ljust] does
    not truncate. *)
Lemma word_angles_length (word_dict : gmap str nat) (m : nat) word id :
  word_dict !! word = Some id → (id ≤ m)%nat →
  ∃ a, word_angles word_dict (Z.log2_up (1 + Z.of_nat m)) word = Some a
    ∧ Z.of_nat (length a) = Z.max 1 (Z.log2_up (1 + Z.of_nat m)).
Proof.
  intros Hw Hid. unfold word_angles. rewrite Hw. simpl.
  rewrite label_bin_bits, label_array_bits by lia.
  eexists. split; [done|]. rewrite length_fmap.
  destruct (decide (m = 0)%nat) as [->|Hm].
  - by replace id with 0%nat by lia.
  - pose proof (id_below_pow2_ceil_log2 (Z.of_nat id) (Z.of_nat m)
                  ltac:(lia)) as Hlt.
    assert (Hn : 1 ≤ Z.log2_up (1 + Z.of_nat m)).
    { pose proof (Z.log2_up_pos (1 + Z.of_nat m)). lia. }
    pose proof (length_label_bin (Z.of_nat id) _ ltac:(lia) Hlt Hn) as Hlen.
    rewrite label_bin_bits, length_fmap in Hlen by lia. lia.
Qed.
End Rows.

Section Returns.
Context (word_dict : gmap str nat) (m : nat).
Hypothesis Hm : max_of (map_to_list word_dict).*2 = Some m.

Let n := Z.log2_up (1 + Z.of_nat m).

Lemma around_angles around :
  Forall (λ w, is_Some (word_dict !! w)) around →
  ∃ rows, mapM (word_angles word_dict n) around = Some rows
    ∧ Forall (λ a, length a = Z.to_nat (Z.max 1 n)) rows.
Proof.
  intros Hws.
  assert (Hw : ∀ w, w ∈ around →
            ∃ a, word_angles word_dict n w = Some a
              ∧ length a = Z.to_nat (Z.max 1 n)).
  { intros w Hin. eapply Forall_forall in Hws as [id Hid]; [|done].
    destruct (word_angles_length word_dict m w id Hid) as (a & Ha & Hl).
    { by eapply max_id_ge. }
    exists a. split; [done|]. fold n in Hl. lia. }
  destruct (mapM (word_angles word_dict n) around) as [rows|] eqn:Hrows.
  - exists rows. split; [done|]. apply mapM_Some_1 in Hrows.
    apply Forall_lookup. intros i a Ha.
    destruct (Forall2_lookup_r _ _ _ _ _ Hrows Ha) as (w & Hi & Hwa).
    destruct (Hw w) as (a' & Ha' & Hl); [by eapply list_elem_of_lookup_2|].
    congruence.
  - apply mapM_None_1, Exists_exists in Hrows as (w & Hin & Hnone).
    destruct (Hw w Hin) as (a & Ha & _). congruence.
Qed.

Lemma sample_rows (sample : list sample_t) (c : nat) :
  Forall (λ s : sample_t, length s.1 = c ∧ is_Some (word_dict !! s.2)
                          ∧ Forall (λ w, is_Some (word_dict !! w)) s.1)
         sample →
  ∃ rds, mapM (sample_data word_dict n) sample = Some rds
    ∧ Forall (λ rd : list angle * nat,
                length rd.1 = (c * Z.to_nat (Z.max 1 n))%nat) rds.
Proof.
  intros Hall.
  assert (Hs : ∀ s, s ∈ sample →
            ∃ rd, sample_data word_dict n s = Some rd
              ∧ length rd.1 = (c * Z.to_nat (Z.max 1 n))%nat).
  { intros [around center] Hin.
    eapply Forall_forall in Hall as (Hc & [y Hy] & Hws); [|done].
    simpl in *. destruct (around_angles around Hws) as (rows & Hrows & Hrl).
    unfold sample_data. simpl. rewrite Hrows, Hy. simpl.
    eexists. split; [done|]. simpl.
    destruct (concat_uniform _ rows Hrl) as [-> _].
    apply length_mapM in Hrows. lia. }
  destruct (mapM (sample_data word_dict n) sample) as [rds|] eqn:Hrds.
  - exists rds. split; [done|]. apply mapM_Some_1 in Hrds.
    apply Forall_lookup. intros i rd Hrd.
    destruct (Forall2_lookup_r _ _ _ _ _ Hrds Hrd) as (s & Hi & Hsd).
    destruct (Hs s) as (rd' & Hrd' & Hl); [by eapply list_elem_of_lookup_2|].
    congruence.
  - apply mapM_None_1, Exists_exists in Hrds as (s & Hin & Hnone).
    destruct (Hs s Hin) as (rd & Hrd & _). congruence.
Qed.
End Returns.

(** [GenerateTrainData] returns when the dictionary is not empty, holds
    every word of the samples, and the samples have one number of context
    words. *)
Lemma GenerateTrainData_returns (sample : list sample_t)
    (word_dict : gmap str nat) (c : nat) :
  word_dict ≠ ∅ →
  Forall (λ s : sample_t, length s.1 = c ∧ is_Some (word_dict !! s.2)
                          ∧ Forall (λ w, is_Some (word_dict !! w)) s.1)
         sample →
  is_Some (GenerateTrainData sample word_dict).
Proof.
  intros Hne Hall. unfold GenerateTrainData.
  destruct (max_of (map_to_list word_dict).*2) as [m|] eqn:Hm; simpl.
  2:{ destruct (map_to_list word_dict) eqn:Hl; [|done].
      by apply map_to_list_empty_iff in Hl. }
  rewrite samples_loop.
  destruct (sample_rows word_dict m Hm sample c Hall) as (rds & -> & Hlen).
  simpl. unfold np_array2.
  destruct rds as [|rd rds]; simpl; [done|].
  apply Forall_cons in Hlen as [Hrd Hlen].
  rewrite (proj2 (forallb_forall _ _)); [done|].
  intros r' Hr'%list_elem_of_In%list_elem_of_fmap.
  destruct Hr' as (rd' & -> & Hin).
  eapply Forall_forall in Hlen; [|done]. apply Nat.eqb_eq. lia.
Qed.

(** For a dictionary of at least two words, the rows of
    [GenerateTrainData] are the binary codes of the ids of the context
    words, as angles, [n = ceil(log2(1 + m))] per word, and the targets
    are the ids of the center words. *)
Lemma GenerateTrainData_rows (sample : list sample_t)
    (word_dict : gmap str nat) data_x data_y (m : nat) :
  GenerateTrainData sample word_dict = Some (data_x, data_y) →
  max_of (map_to_list word_dict).*2 = Some m → (1 ≤ m)%nat →
  let n := Z.log2_up (1 + Z.of_nat m) in
  length data_x = length sample ∧ length data_y = length sample
  ∧ ∀ k around center, sample !! k = Some (around, center) →
      ∃ row y, data_x !! k = Some row ∧ data_y !! k = Some y
        ∧ word_dict !! center = Some y
        ∧ Z.of_nat (length row) = Z.of_nat (length around) * n
        ∧ ∀ (w j : nat) word, around !! w = Some word → Z.of_nat j < n →
            ∃ id, word_dict !! word = Some id
              ∧ row !! (Z.to_nat n * w + j)%nat
                = Some (angle_of_bit (Z.testbit (Z.of_nat id) (Z.of_nat j))).
Proof.
  intros Hg Hm Hm1 n. unfold GenerateTrainData in Hg.
  rewrite Hm in Hg. simpl in Hg. fold n in Hg.
  rewrite samples_loop in Hg. simpl in Hg.
  destruct (mapM _ sample) as [rds|] eqn:Hrds; simpl in Hg; [|done].
  destruct (np_array2 _) as [xs|] eqn:Hxs; simplify_eq/=.
  apply np_array2_Some in Hxs as ->.
  apply mapM_Some_1 in Hrds.
  pose proof (Forall2_length _ _ _ Hrds) as Hlen.
  rewrite !length_fmap. split; [done|]. split; [done|].
  intros k around center Hk.
  destruct (Forall2_lookup_l _ _ _ _ _ Hrds Hk) as ([row y] & Hrd & Hsd).
  exists row, y. rewrite !list_lookup_fmap, Hrd. simpl.
  split; [done|]. split; [done|].
  unfold sample_data in Hsd. simpl in Hsd.
  destruct (mapM _ around) as [rows|] eqn:Hrows; simpl in Hsd; [|done].
  destruct (word_dict !! center) as [y'|] eqn:Hy; simplify_eq/=.
  split; [done|].
  apply mapM_Some_1 in Hrows.
  assert (Hn : 1 ≤ n).
  { pose proof (Z.log2_up_pos (1 + Z.of_nat m)). lia. }
  assert (Hword : ∀ w word a, around !! w = Some word → rows !! w = Some a →
            ∃ id, word_dict !! word = Some id
              ∧ Z.of_nat (length a) = n
              ∧ ∀ j : nat, Z.of_nat j < n →
                  a !! j = Some (angle_of_bit
                                   (Z.testbit (Z.of_nat id) (Z.of_nat j)))).
  { intros w word a Hw Ha.
    pose proof (Forall2_lookup_lr _ _ _ _ _ _ Hrows Hw Ha) as Hwa.
    destruct (word_dict !! word) as [id|] eqn:Hid.
    2:{ unfold word_angles in Hwa. by rewrite Hid in Hwa. }
    exists id. split; [done|].
    eapply word_angles_bits; [done| |done..].
    apply id_below_pow2_ceil_log2.
    pose proof (max_id_ge _ _ _ _ Hm Hid). lia. }
  assert (Hunif : Forall (λ a, length a = Z.to_nat n) rows).
  { apply Forall_lookup. intros w a Ha.
    destruct (Forall2_lookup_r _ _ _ _ _ Hrows Ha) as (word & Hw & _).
    destruct (Hword w word a Hw Ha) as (_ & _ & ? & _). lia. }
  destruct (concat_uniform _ rows Hunif) as [Hcl Hclk].
  split.
  { rewrite Hcl. apply Forall2_length in Hrows. lia. }
  intros w j word Hw Hj.
  destruct (Forall2_lookup_l _ _ _ _ _ Hrows Hw) as (a & Ha & _).
  destruct (Hword w word a Hw Ha) as (id & Hid & _ & Hbits).
  exists id. split; [done|].
  rewrite (Hclk w j a Ha) by lia. by apply Hbits.
Qed.

(** C4 at a dictionary of one word. The corpus ["a a a"] with the window 1
    gives the dictionary [{'a': 0}] and one sample of two context words.
    [GenerateTrainData] computes [n_qubits = ceil(log2(1 + 0)) = 0], yet the
    row has two entries, one per context word, not [2 * 0]. *)
Theorem train_data_single_word_row :
  GenerateWordDictAndSample (lit "a a a") 1
  = Some ({[lit "a" := 0%nat]}, [([lit "a"; lit "a"], lit "a")])
  ∧ max_of (map_to_list ({[lit "a" := 0%nat]} : gmap str nat)).*2 = Some 0%nat
  ∧ Z.log2_up (1 + Z.of_nat 0) = 0
  ∧ GenerateTrainData [([lit "a"; lit "a"], lit "a")] {[lit "a" := 0%nat]}
    = Some ([[PiTimes 0; PiTimes 0]], [0%nat]).
Proof. repeat split; by vm_compute. Qed.

(** * Further properties *)

(** ** Windows that are negative *)

Section NegativeWindow.

Lemma getitem_Some_elem_of {A} (l : list A) i x :
  getitem l i = Some x → x ∈ l.
Proof.
  unfold getitem. destruct (_ && _); [|done].
  apply list_elem_of_lookup_2.
Qed.

Lemma getitem_below {A} (l : list A) i :
  i + Z.of_nat (length l) < 0 → getitem l i = None.
Proof.
  intros Hi. unfold getitem. replace (i <? 0) with true by lia.
  by replace (0 <=? i + Z.of_nat (length l)) with false by lia.
Qed.

(** With a negative window the inner loop has nothing to go through. *)
Lemma sample_at_negative tokens (w : Z) item :
  w < 0 →
  sample_at tokens w item
  = center ← getitem tokens (Z.of_nat item.1 + w); Some ([], center).
Proof.
  intros Hw. unfold sample_at, range. by rewrite seqZ_nil by lia.
Qed.

Lemma sampling_loop_mapM tokens (w : Z) :
  for_each (enumerate (slice tokens w (- w))) (sampling_step tokens w) []
  = mapM (sample_at tokens w) (enumerate (slice tokens w (- w))).
Proof.
  rewrite (for_each_ext _ (λ item sampling,
    y ← sample_at tokens w item; Some (sampling ++ [y])))
    by (intros; apply sampling_step_sample_at).
  rewrite for_each_collect. by destruct (mapM _ _).
Qed.

Lemma length_slice_negative {A} (l : list A) (w : Z) :
  w < 0 →
  Z.of_nat (length (slice l w (- w)))
  = Z.max 0 (Z.min (- w) (Z.of_nat (length l))
             - Z.max 0 (Z.of_nat (length l) + w)).
Proof.
  intros Hw. unfold slice, clip_fwd.
  rewrite length_take, length_drop.
  replace (w <? 0) with true by lia. replace (- w <? 0) with false by lia.
  lia.
Qed.
End NegativeWindow.

(** [GenerateWordDictAndSample] raises exactly when the window is below
    [-L] for a corpus of [L > 0] tokens: then the first center,
    [all_words[window]], is out of range. *)
Theorem GenerateWordDictAndSample_raises_iff (corpus : str) (window : Z) :
  GenerateWordDictAndSample corpus window = None
  ↔ window < - Z.of_nat (length (split corpus))
    ∧ (0 < length (split corpus))%nat.
Proof.
  set (tokens := split corpus).
  destruct (decide (0 ≤ window)) as [Hw|Hw].
  { destruct (GenerateWordDictAndSample_returns corpus window Hw) as (s & -> & _).
    split; [done|]. lia. }
  unfold GenerateWordDictAndSample. fold tokens.
  rewrite sampling_loop_mapM.
  pose proof (length_slice_negative tokens window ltac:(lia)) as Hlen.
  set (sl := slice tokens window (- window)) in *.
  split.
  - destruct (mapM _ _) as [s|] eqn:Hs; [done|]. intros _.
    apply mapM_None_1, Exists_exists in Hs as ([i x] & Hin & Hnone).
    apply list_elem_of_lookup in Hin as [i' Hi'].
    apply list_lookup_imap_Some in Hi' as (x' & Hx' & ?). simplify_eq.
    apply lookup_lt_Some in Hx'.
    rewrite sample_at_negative in Hnone by lia. simpl in Hnone.
    destruct (getitem tokens (Z.of_nat i' + window)) as [c|] eqn:Hc; [done|].
    unfold getitem in Hc.
    replace (Z.of_nat i' + window <? 0) with true in Hc by lia.
    destruct (_ && _) eqn:Hb.
    + apply lookup_ge_None in Hc. lia.
    + apply andb_false_iff in Hb. lia.
  - intros [Hlt Hpos].
    destruct (lookup_lt_is_Some_2 sl 0) as [x Hx]; [lia|].
    assert (Hnone : sample_at tokens window (0%nat, x) = None).
    { rewrite sample_at_negative by lia. cbn [fst].
      by rewrite getitem_below by lia. }
    destruct (mapM _ _) as [s|] eqn:Hs; [|done].
    apply mapM_Some_1 in Hs.
    assert (Hi : enumerate sl !! 0%nat = Some (0%nat, x)).
    { unfold enumerate. by rewrite list_lookup_imap, Hx. }
    destruct (Forall2_lookup_l _ _ _ _ _ Hs Hi) as (? & _ & ?). congruence.
Qed.

Lemma GenerateWordDictAndSample_raises_iff_witness :
  GenerateWordDictAndSample (lit "a b") (-3) = None
  ∧ GenerateWordDictAndSample (lit "a b") (-2)
    = Some ({[lit "a" := 0%nat; lit "b" := 1%nat]},
            [([], lit "a"); ([], lit "b")]).
Proof.
  split; [|by vm_compute].
  apply (GenerateWordDictAndSample_raises_iff (lit "a b") (-3)).
  split; vm_compute; [done|lia].
Defined.

(** A sample made with a negative window has no context word. *)
Theorem negative_window_empty_context (corpus : str) (window : Z) d s :
  window < 0 →
  GenerateWordDictAndSample corpus window = Some (d, s) →
  Forall (λ smp : sample_t, smp.1 = []) s.
Proof.
  intros Hw. unfold GenerateWordDictAndSample. rewrite sampling_loop_mapM.
  destruct (mapM _ _) as [s'|] eqn:Hs; [|done]. intros [= _ <-].
  apply mapM_Some_1 in Hs. apply Forall_lookup. intros k smp Hk.
  destruct (Forall2_lookup_r _ _ _ _ _ Hs Hk) as (item & _ & Hitem).
  rewrite sample_at_negative in Hitem by done.
  destruct (getitem _ _); by simplify_eq/=.
Qed.

Lemma negative_window_empty_context_witness :
  -2 < 0 ∧ Forall (λ smp : sample_t, smp.1 = [])
                  [([] : list str, lit "a"); ([], lit "b")].
Proof.
  split; [lia|].
  apply (negative_window_empty_context (lit "a b") (-2)
           {[lit "a" := 0%nat; lit "b" := 1%nat]}); [lia|by vm_compute].
Defined.

(** ** The words of the samples *)

Section SampleWords.

Lemma around_loop_tokens tokens (w idx : Z) xs acc r :
  for_each xs (around_step tokens w idx) acc = Some r →
  Forall (λ x, x ∈ tokens) acc → Forall (λ x, x ∈ tokens) r.
Proof.
  revert acc. induction xs as [|i xs IH]; intros acc Hr Hacc; simpl in Hr.
  - by simplify_eq.
  - destruct (around_step tokens w idx i acc) as [acc'|] eqn:Hstep;
      simpl in Hr; [|done].
    apply (IH acc' Hr). unfold around_step in Hstep.
    destruct (decide _); [|by simplify_eq].
    destruct (getitem tokens i) as [x|] eqn:Hx; simplify_eq/=.
    apply Forall_app. split; [done|].
    constructor; [|done]. by eapply getitem_Some_elem_of.
Qed.

Lemma sample_at_tokens tokens (w : Z) item (smp : sample_t) :
  sample_at tokens w item = Some smp →
  smp.2 ∈ tokens ∧ Forall (λ x, x ∈ tokens) smp.1.
Proof.
  unfold sample_at.
  destruct (for_each _ _ _) as [around|] eqn:Haround; simpl; [|done].
  destruct (getitem _ _) as [center|] eqn:Hc; simpl; [|done].
  intros [= <-]. simpl. split; [by eapply getitem_Some_elem_of|].
  by eapply around_loop_tokens.
Qed.

Lemma split_spaces s : Forall (λ c, is_space c = true) s → split s = [].
Proof.
  unfold split. induction 1 as [|c s Hc _ IH]; simpl; [done|].
  by rewrite Hc.
Qed.
End SampleWords.

Lemma returned_samples_keys (corpus : str) (window : Z) d s :
  GenerateWordDictAndSample corpus window = Some (d, s) →
  Forall (λ smp : sample_t,
            is_Some (d !! smp.2) ∧ Forall (λ w, is_Some (d !! w)) smp.1) s.
Proof.
  intros Hg. pose proof (GenerateWordDictAndSample_dict _ _ _ _ Hg) as Hd.
  assert (Hkey : ∀ w, w ∈ split corpus → is_Some (d !! w)).
  { intros w Hw. apply elem_of_dom. rewrite (wd_dom _ _ Hd).
    by apply elem_of_list_to_set. }
  unfold GenerateWordDictAndSample in Hg. rewrite sampling_loop_mapM in Hg.
  destruct (mapM _ _) as [s'|] eqn:Hs; simplify_eq/=.
  apply mapM_Some_1 in Hs. apply Forall_lookup. intros k smp Hk.
  destruct (Forall2_lookup_r _ _ _ _ _ Hs Hk) as (item & _ & Hitem).
  apply sample_at_tokens in Hitem as [Hc Ha].
  split; [by apply Hkey|]. eapply Forall_impl; [done|]. apply Hkey.
Qed.

(** Every word of every sample that [GenerateWordDictAndSample] returns,
    context or center, is a key of the dictionary returned with it. *)
Theorem sample_words_in_dict (corpus : str) (window : Z) d s :
  GenerateWordDictAndSample corpus window = Some (d, s) →
  Forall (λ smp : sample_t,
            is_Some (d !! smp.2) ∧ Forall (λ w, is_Some (d !! w)) smp.1) s.
Proof. apply returned_samples_keys. Qed.

Lemma sample_words_in_dict_witness :
  let d : gmap str nat :=
    {[lit "a" := 0%nat; lit "b" := 1%nat; lit "c" := 2%nat; lit "d" := 3%nat]} in
  let s := [([lit "a"; lit "c"], lit "b"); ([lit "b"; lit "d"], lit "c")] in
  GenerateWordDictAndSample (lit "a b c d") 1 = Some (d, s)
  ∧ Forall (λ smp : sample_t,
              is_Some (d !! smp.2) ∧ Forall (λ w, is_Some (d !! w)) smp.1) s.
Proof.
  intros d s. assert (Hg : GenerateWordDictAndSample (lit "a b c d") 1
                           = Some (d, s)) by (by vm_compute).
  split; [done|]. exact (sample_words_in_dict (lit "a b c d") 1 d s Hg).
Defined.

(** The dictionary depends on the set of the words of the corpus only: not
    on their order, on how often they occur, or on the window. *)
Theorem word_dict_of_token_set (c1 c2 : str) (w1 w2 : Z) d1 s1 d2 s2 :
  (∀ w, w ∈ split c1 ↔ w ∈ split c2) →
  GenerateWordDictAndSample c1 w1 = Some (d1, s1) →
  GenerateWordDictAndSample c2 w2 = Some (d2, s2) →
  d1 = d2.
Proof.
  intros Hset. unfold GenerateWordDictAndSample.
  destruct (for_each _ _ _); [|done]. destruct (for_each _ _ _); [|done].
  intros [= <- _] [= <- _]. unfold sorted_set. do 3 f_equal.
  apply set_eq. intros w. by rewrite !elem_of_list_to_set.
Qed.

Lemma word_dict_of_token_set_witness :
  let d : gmap str nat :=
    {[lit "a" := 0%nat; lit "b" := 1%nat; lit "c" := 2%nat]} in
  (∀ w, w ∈ split (lit "b a b c") ↔ w ∈ split (lit "c c a  b"))
  ∧ GenerateWordDictAndSample (lit "b a b c") 1
    = Some (d, [([lit "b"; lit "b"], lit "a"); ([lit "a"; lit "c"], lit "b")])
  ∧ GenerateWordDictAndSample (lit "c c a  b") 0 = Some (d, [])
  ∧ d = d.
Proof.
  intros d.
  assert (Hset : ∀ w, w ∈ split (lit "b a b c") ↔ w ∈ split (lit "c c a  b")).
  { intros w. vm_compute split. rewrite !elem_of_cons, !elem_of_nil. tauto. }
  assert (H1 : GenerateWordDictAndSample (lit "b a b c") 1
               = Some (d, [([lit "b"; lit "b"], lit "a");
                           ([lit "a"; lit "c"], lit "b")]))
    by (by vm_compute).
  assert (H2 : GenerateWordDictAndSample (lit "c c a  b") 0 = Some (d, []))
    by (by vm_compute).
  do 3 (split; [done|]).
  exact (word_dict_of_token_set _ _ _ _ _ _ _ _ Hset H1 H2).
Defined.

(** ** When the training data exist *)

Section TrainDataDomain.

Lemma np_array2_Some_iff {A} (rows : list (list A)) :
  is_Some (np_array2 rows) ↔ ∃ len, Forall (λ r, length r = len) rows.
Proof.
  unfold np_array2. destruct rows as [|r rs].
  { split; [by exists 0%nat|done]. }
  destruct (forallb _ rs) eqn:Hall.
  - split; [intros _|done]. exists (length r). constructor; [done|].
    apply Forall_forall. intros r' Hr'%list_elem_of_In.
    rewrite forallb_forall in Hall. by apply Nat.eqb_eq, Hall.
  - split; [by intros [? ?]|]. intros [len Hlen]. exfalso.
    apply Forall_cons in Hlen as [Hr Hrs].
    assert (forallb (λ r', (length r' =? length r)%nat) rs = true);
      [|congruence].
    apply forallb_forall. intros r' Hr'%list_elem_of_In.
    eapply Forall_forall in Hrs; [|done]. apply Nat.eqb_eq. congruence.
Qed.

Lemma max_of_None l : max_of l = None ↔ l = [].
Proof. by destruct l. Qed.

Lemma max_of_dict_None (d : gmap str nat) :
  max_of (map_to_list d).*2 = None ↔ d = ∅.
Proof.
  rewrite max_of_None, <- map_to_list_empty_iff.
  by destruct (map_to_list d).
Qed.

Lemma word_angles_Some (d : gmap str nat) n word a :
  word_angles d n word = Some a → is_Some (d !! word).
Proof. unfold word_angles. by destruct (d !! word). Qed.

(** What [sample_data] returns for a sample, when it returns. *)
Lemma sample_data_Some (d : gmap str nat) (m : nat) (smp : sample_t) rd :
  max_of (map_to_list d).*2 = Some m →
  sample_data d (Z.log2_up (1 + Z.of_nat m)) smp = Some rd →
  d !! smp.2 = Some rd.2
  ∧ Forall (λ w, is_Some (d !! w)) smp.1
  ∧ length rd.1
    = (length smp.1 * Z.to_nat (Z.max 1 (Z.log2_up (1 + Z.of_nat m))))%nat.
Proof.
  intros Hm. unfold sample_data.
  destruct (mapM _ smp.1) as [rows|] eqn:Hrows; simpl; [|done].
  destruct (d !! smp.2) as [y|]; simpl; [|done]. intros [= <-]. simpl.
  split; [done|].
  assert (Hws : Forall (λ w, is_Some (d !! w)) smp.1).
  { apply mapM_Some_1 in Hrows. apply Forall_lookup. intros i w Hw.
    destruct (Forall2_lookup_l _ _ _ _ _ Hrows Hw) as (a & _ & Ha).
    by eapply word_angles_Some. }
  split; [done|].
  destruct (around_angles d m Hm smp.1 Hws) as (rows' & Hrows' & Hlen).
  cbv zeta in Hrows'. rewrite Hrows in Hrows'. injection Hrows' as <-.
  destruct (concat_uniform _ rows Hlen) as [-> _].
  by rewrite <- (length_mapM _ _ _ Hrows).
Qed.

(** The parts of what [GenerateTrainData] returns. *)
Lemma GenerateTrainData_Some (sample : list sample_t) (d : gmap str nat) x y :
  GenerateTrainData sample d = Some (x, y) →
  ∃ m rds, max_of (map_to_list d).*2 = Some m
    ∧ mapM (sample_data d (Z.log2_up (1 + Z.of_nat m))) sample = Some rds
    ∧ is_Some (np_array2 rds.*1)
    ∧ x = rds.*1 ∧ y = rds.*2.
Proof.
  unfold GenerateTrainData.
  destruct (max_of _) as [m|] eqn:Hm; simpl; [|done].
  rewrite samples_loop.
  destruct (mapM _ sample) as [rds|] eqn:Hrds; simpl; [|done].
  destruct (np_array2 _) as [xs|] eqn:Hxs; simpl; [|done]. intros [= <- <-].
  exists m, rds. split; [done|]. split; [done|].
  split; [by rewrite Hxs|]. split; [|done].
  by apply np_array2_Some in Hxs.
Qed.

Lemma GenerateTrainData_Some_2 (sample : list sample_t) (d : gmap str nat)
    m rds :
  max_of (map_to_list d).*2 = Some m →
  mapM (sample_data d (Z.log2_up (1 + Z.of_nat m))) sample = Some rds →
  is_Some (np_array2 rds.*1) →
  GenerateTrainData sample d = Some (rds.*1, rds.*2).
Proof.
  intros Hm Hrds [xs Hxs]. unfold GenerateTrainData. rewrite Hm. simpl.
  rewrite samples_loop, Hrds. simpl. rewrite Hxs. simpl.
  by apply np_array2_Some in Hxs as ->.
Qed.

Lemma mapM_app_Some {A B} (f : A → option B) l1 l2 k :
  mapM f (l1 ++ l2) = Some k →
  ∃ k1 k2, k = k1 ++ k2 ∧ mapM f l1 = Some k1 ∧ mapM f l2 = Some k2.
Proof.
  intros Hk%mapM_Some_1.
  apply Forall2_app_inv_l in Hk as (k1 & k2 & H1 & H2 & ->).
  exists k1, k2. split; [done|]. split; by apply mapM_Some_2.
Qed.
End TrainDataDomain.

(** On a dictionary whose ids are below [2^31], [GenerateTrainData]
    returns exactly when the dictionary is not empty (else [max] raises),
    every word of the samples is a key of it (else the lookup raises), and
    the samples have one number of context words (else the rows do not
    make an array). *)
Theorem GenerateTrainData_returns_iff (sample : list sample_t)
    (word_dict : gmap str nat) :
  int32_ids word_dict →
  is_Some (GenerateTrainData sample word_dict)
  ↔ word_dict ≠ ∅
    ∧ Forall (λ s : sample_t, is_Some (word_dict !! s.2)
                ∧ Forall (λ w, is_Some (word_dict !! w)) s.1) sample
    ∧ ∃ c, Forall (λ s : sample_t, length s.1 = c) sample.
Proof.
  intros _. split.
  - intros [[x y] Hg].
    apply GenerateTrainData_Some in Hg as (m & rds & Hm & Hrds & Hxs & _).
    split. { intros ->. by rewrite map_to_list_empty in Hm. }
    apply mapM_Some_1 in Hrds.
    set (W := Z.to_nat (Z.max 1 (Z.log2_up (1 + Z.of_nat m)))).
    assert (Hsd : Forall2 (λ (s : sample_t) (rd : list angle * nat),
                     (is_Some (word_dict !! s.2)
                      ∧ Forall (λ w, is_Some (word_dict !! w)) s.1)
                     ∧ length rd.1 = (length s.1 * W)%nat) sample rds).
    { eapply Forall2_impl; [done|]. intros s rd Hsd; simpl in Hsd.
      destruct (sample_data_Some _ _ _ _ Hm Hsd) as (Hy & Hws & Hlen).
      split; [|done]. split; [by rewrite Hy|done]. }
    split. { eapply Forall2_Forall_l; [exact Hsd|].
             apply Forall_forall. by intros rd _ s [? _]. }
    apply np_array2_Some_iff in Hxs as [len Hlen].
    exists (len `div` W)%nat.
    apply Forall_lookup. intros k s Hk.
    destruct (Forall2_lookup_l _ _ _ _ _ Hsd Hk) as (rd & Hrd & _ & Hl).
    assert (Hrow : length rd.1 = len).
    { eapply (Forall_lookup_1 _ _ k) in Hlen; [done|].
      by rewrite list_lookup_fmap, Hrd. }
    rewrite <- Hrow, Hl. symmetry. apply Nat.div_mul. lia.
  - intros (Hne & Hall & c & Hc).
    apply (GenerateTrainData_returns sample word_dict c Hne).
    apply Forall_lookup. intros k s Hk.
    pose proof (Forall_lookup_1 _ _ _ _ Hall Hk) as [? ?].
    pose proof (Forall_lookup_1 _ _ _ _ Hc Hk). done.
Qed.

Lemma GenerateTrainData_returns_iff_witness :
  let d : gmap str nat := {[lit "a" := 0%nat; lit "b" := 1%nat]} in
  int32_ids d
  ∧ GenerateTrainData [([lit "a"], lit "b")] ∅ = None
  ∧ GenerateTrainData [([lit "a"], lit "c")] d = None
  ∧ GenerateTrainData [([lit "a"], lit "b"); ([], lit "b")] d = None
  ∧ is_Some (GenerateTrainData [([lit "a"], lit "b"); ([lit "b"], lit "b")] d).
Proof.
  intros d.
  assert (Hd : int32_ids d)
    by (by refine (bool_decide_unpack _ _); vm_compute).
  split; [done|]. do 3 (split; [by vm_compute|]).
  apply (GenerateTrainData_returns_iff _ d Hd). split; [done|].
  split; [|exists 1%nat]; by refine (bool_decide_unpack _ _); vm_compute.
Defined.

(** The training data of a list of samples are those of its parts, one
    after the other. *)
Theorem GenerateTrainData_app (s1 s2 : list sample_t)
    (word_dict : gmap str nat) x y :
  GenerateTrainData (s1 ++ s2) word_dict = Some (x, y) →
  ∃ x1 y1 x2 y2,
    GenerateTrainData s1 word_dict = Some (x1, y1)
    ∧ GenerateTrainData s2 word_dict = Some (x2, y2)
    ∧ x = x1 ++ x2 ∧ y = y1 ++ y2.
Proof.
  intros Hg.
  apply GenerateTrainData_Some in Hg as (m & rds & Hm & Hrds & Hxs & -> & ->).
  apply mapM_app_Some in Hrds as (r1 & r2 & -> & Hr1 & Hr2).
  apply np_array2_Some_iff in Hxs as [len Hlen].
  rewrite fmap_app in Hlen. apply Forall_app in Hlen as [Hl1 Hl2].
  exists r1.*1, r1.*2, r2.*1, r2.*2. rewrite !fmap_app.
  split; [|split; [|done]].
  - apply (GenerateTrainData_Some_2 _ _ m); [done..|].
    apply np_array2_Some_iff. by exists len.
  - apply (GenerateTrainData_Some_2 _ _ m); [done..|].
    apply np_array2_Some_iff. by exists len.
Qed.

Lemma GenerateTrainData_app_witness :
  let d : gmap str nat := {[lit "a" := 0%nat; lit "b" := 1%nat]} in
  GenerateTrainData ([([lit "a"], lit "b")] ++ [([lit "b"], lit "a")]) d
  = Some ([[PiTimes 0]; [PiTimes 1]], [1%nat; 0%nat])
  ∧ ∃ x1 y1 x2 y2,
      GenerateTrainData [([lit "a"], lit "b")] d = Some (x1, y1)
      ∧ GenerateTrainData [([lit "b"], lit "a")] d = Some (x2, y2)
      ∧ [[PiTimes 0]; [PiTimes 1]] = x1 ++ x2 ∧ [1%nat; 0%nat] = y1 ++ y2.
Proof.
  intros d.
  assert (Hg : GenerateTrainData
                 ([([lit "a"], lit "b")] ++ [([lit "b"], lit "a")]) d
               = Some ([[PiTimes 0]; [PiTimes 1]], [1%nat; 0%nat]))
    by (by vm_compute).
  split; [done|]. exact (GenerateTrainData_app _ _ d _ _ Hg).
Defined.

(** ** From the corpus to the training data *)

Section Pipeline.

Lemma max_of_attained l m : max_of l = Some m → m ∈ l.
Proof.
  destruct l as [|x l]; [done|]. simpl. intros [= <-].
  revert x. induction l as [|y l IH]; intros x; simpl; [by left|].
  pose proof (IH (x `max` y)%nat) as Hx.
  apply elem_of_cons in Hx as [Heq|Hin].
  - rewrite Heq. destruct (Nat.max_spec x y) as [[_ ->]|[_ ->]];
      [right; left|left].
  - by do 2 right.
Qed.

(** The largest id of a word dictionary is its size less one. *)
Lemma word_dict_max (tokens : list str) (d : gmap str nat) :
  is_word_dict tokens d → tokens ≠ [] →
  (0 < size d)%nat ∧ max_of (map_to_list d).*2 = Some (size d - 1)%nat.
Proof.
  intros Hd Hne.
  assert (Hsize : (0 < size d)%nat).
  { rewrite (wd_size _ _ Hd). destruct tokens as [|t tokens]; [done|].
    assert (Ht : t ∈ remove_dups (t :: tokens))
      by (apply elem_of_remove_dups; left).
    destruct (remove_dups (t :: tokens)); [by apply elem_of_nil in Ht|].
    simpl. lia. }
  split; [done|].
  destruct (max_of (map_to_list d).*2) as [m|] eqn:Hm.
  2:{ apply max_of_dict_None in Hm. subst d.
      rewrite map_size_empty in Hsize. lia. }
  f_equal.
  pose proof (max_of_attained _ _ Hm) as Hin.
  apply list_elem_of_fmap in Hin as ([w i] & -> & Hwi%elem_of_map_to_list).
  simpl in *.
  assert (i < size d)%nat by (apply (wd_onto _ _ Hd); by exists w).
  destruct (proj2 (wd_onto _ _ Hd (size d - 1)%nat)) as [w' Hw']; [lia|].
  pose proof (max_id_ge _ _ _ _ Hm Hw'). lia.
Qed.
End Pipeline.

Lemma corpus_train_data_rows (corpus : str) (window : Z) :
  0 ≤ window → split corpus ≠ [] →
  ∃ d s x y,
    GenerateWordDictAndSample corpus window = Some (d, s)
    ∧ GenerateTrainData s d = Some (x, y)
    ∧ length x = length s ∧ length y = length s
    ∧ Forall (λ row, Z.of_nat (length row)
                     = 2 * window * Z.max 1 (Z.log2_up (Z.of_nat (size d)))) x
    ∧ Forall (λ id, (id < size d)%nat) y.
Proof.
  intros Hw Hne.
  destruct (GenerateWordDictAndSample_returns corpus window Hw)
    as (s & Hg & _ & Hs).
  pose proof (GenerateWordDictAndSample_dict _ _ _ _ Hg) as Hd.
  pose proof (returned_samples_keys _ _ _ _ Hg) as Hkeys.
  set (d := dict_of_enumerate (sorted_set (split corpus))) in *.
  destruct (word_dict_max _ _ Hd Hne) as [Hsize Hm].
  assert (Hall : Forall (λ smp : sample_t,
             length smp.1 = (2 * Z.to_nat window)%nat
             ∧ is_Some (d !! smp.2)
             ∧ Forall (λ w, is_Some (d !! w)) smp.1) s).
  { apply Forall_lookup. intros k smp Hk.
    destruct (Hs k) as (smp' & Hk' & _ & Hlen & _);
      [by eapply lookup_lt_Some|].
    simplify_eq. split; [done|]. by eapply Forall_lookup_1 in Hkeys. }
  destruct (GenerateTrainData_returns s d _
              ltac:(intros Hd0; rewrite Hd0, map_size_empty in Hsize; lia) Hall)
    as [[x y] Hxy].
  exists d, s, x, y. split; [done|]. split; [done|].
  apply GenerateTrainData_Some in Hxy as (m & rds & Hm' & Hrds & _ & -> & ->).
  rewrite Hm in Hm'. injection Hm' as <-.
  replace (1 + Z.of_nat (size d - 1)) with (Z.of_nat (size d)) in Hrds by lia.
  rewrite !length_fmap. pose proof (length_mapM _ _ _ Hrds) as Hlen.
  split; [done|]. split; [done|].
  apply mapM_Some_1 in Hrds.
  split; apply Forall_fmap, Forall_lookup; intros k rd Hrd;
    destruct (Forall2_lookup_r _ _ _ _ _ Hrds Hrd) as (smp & Hsmp & Hsd);
    replace (Z.of_nat (size d)) with (1 + Z.of_nat (size d - 1)) in Hsd by lia;
    destruct (sample_data_Some _ _ _ _ Hm Hsd) as (Hy & _ & Hl); simpl.
  - rewrite Hl. eapply Forall_lookup_1 in Hall as [-> _]; [|done].
    replace (1 + Z.of_nat (size d - 1)) with (Z.of_nat (size d)) by lia. lia.
  - apply (wd_onto _ _ Hd). by eexists.
Qed.

(** The pipeline of the notebook: for a corpus of at least one word and a
    window that is not negative, [GenerateTrainData] returns on what
    [GenerateWordDictAndSample] returns. There is one row and one target
    per sample; a row has [2 * window] blocks of
    [max(1, ceil(log2(len(word_dict))))] angles, and a target is an id
    below [len(word_dict)]. *)
Theorem corpus_train_data (corpus : str) (window : Z) :
  0 ≤ window → split corpus ≠ [] →
  ∃ d s x y,
    GenerateWordDictAndSample corpus window = Some (d, s)
    ∧ GenerateTrainData s d = Some (x, y)
    ∧ length x = length s ∧ length y = length s
    ∧ Forall (λ row, Z.of_nat (length row)
                     = 2 * window * Z.max 1 (Z.log2_up (Z.of_nat (size d)))) x
    ∧ Forall (λ id, (id < size d)%nat) y.
Proof. apply corpus_train_data_rows. Qed.

Lemma corpus_train_data_witness :
  0 ≤ 2 ∧ split (lit "I love natural language processing") ≠ []
  ∧ ∃ d s x y,
    GenerateWordDictAndSample (lit "I love natural language processing") 2
    = Some (d, s)
    ∧ GenerateTrainData s d = Some (x, y)
    ∧ length x = length s ∧ length y = length s
    ∧ Forall (λ row, Z.of_nat (length row)
                     = 2 * 2 * Z.max 1 (Z.log2_up (Z.of_nat (size d)))) x
    ∧ Forall (λ id, (id < size d)%nat) y.
Proof.
  split; [lia|]. split; [by vm_compute|].
  apply (corpus_train_data (lit "I love natural language processing") 2);
    [lia|by vm_compute].
Defined.

(** A corpus without a word (empty, or of whitespace only) gives the empty
    dictionary and no sample, for every window; neither the training data
    nor the embedding circuit can be made from them: [max] of no id and
    [log2(0)] raise. *)
Theorem empty_corpus (corpus : str) (window : Z) :
  Forall (λ c, is_space c = true) corpus →
  GenerateWordDictAndSample corpus window = Some (∅, [])
  ∧ GenerateTrainData [] ∅ = None
  ∧ ∀ embedding_dim layers,
      QEmbedding (Z.of_nat (size (∅ : gmap str nat))) embedding_dim window
                 layers = None.
Proof.
  intros Hsp. split; [|done].
  unfold GenerateWordDictAndSample. rewrite (split_spaces _ Hsp).
  unfold slice. by rewrite drop_nil, take_nil.
Qed.

Lemma empty_corpus_witness :
  Forall (λ c, is_space c = true) (lit "  ")
  ∧ GenerateWordDictAndSample (lit "  ") (-2) = Some (∅, []).
Proof.
  assert (H : Forall (λ c, is_space c = true) (lit "  "))
    by (by repeat constructor).
  split; [done|]. by apply (empty_corpus (lit "  ") (-2)).
Defined.

(** ** The parameters of the circuits *)

Section Params.

Lemma circuit_params_cons g circ :
  circuit_params (g :: circ)
  = match gate_param g with
    | Some p => p :: circuit_params circ
    | None => circuit_params circ
    end.
Proof. done. Qed.

Lemma circuit_params_app c1 c2 :
  circuit_params (c1 ++ c2) = circuit_params c1 ++ circuit_params c2.
Proof. apply omap_app. Qed.

Lemma circuit_params_concat (cs : list Circuit) :
  circuit_params (concat cs) = concat (circuit_params <$> cs).
Proof.
  induction cs as [|c cs IH]; [done|]. simpl.
  by rewrite circuit_params_app, IH.
Qed.

Lemma circuit_params_fmap_Some {A} (g : A → gate) (f : A → param) l :
  (∀ x, gate_param (g x) = Some (f x)) →
  circuit_params (g <$> l) = f <$> l.
Proof.
  intros Hg. induction l as [|x l IH]; [done|].
  by rewrite !fmap_cons, circuit_params_cons, Hg, IH.
Qed.

Lemma circuit_params_fmap_None {A} (g : A → gate) l :
  (∀ x, gate_param (g x) = None) → circuit_params (g <$> l) = [].
Proof.
  intros Hg. induction l as [|x l IH]; [done|].
  by rewrite !fmap_cons, circuit_params_cons, Hg, IH.
Qed.

Lemma circuit_params_no_grad circ :
  circuit_params (no_grad circ)
  = (λ p, {| pname := pname p; encoder := encoder p;
             requires_grad := false |}) <$> circuit_params circ.
Proof.
  unfold no_grad. induction circ as [|g circ IH]; [done|].
  rewrite fmap_cons, !circuit_params_cons, IH. by destruct g.
Qed.

Lemma params_name_circuit_params circ :
  params_name circ = pname <$> circuit_params circ.
Proof.
  induction circ as [|g circ IH]; [done|].
  rewrite circuit_params_cons. unfold params_name in *.
  change (omap ?f (g :: circ))
    with (match f g with Some y => y :: omap f circ | None => omap f circ end).
  rewrite IH. by destruct (gate_param g).
Qed.

Lemma circuit_params_encoder n_qubits prefix :
  circuit_params (GenerateEncoderCircuit n_qubits prefix)
  = (λ i, {| pname := param_prefix prefix ++ str_of_int i;
             encoder := true; requires_grad := true |}) <$> seqZ 0 n_qubits.
Proof.
  rewrite GenerateEncoderCircuit_gates. by apply circuit_params_fmap_Some.
Qed.

Lemma circuit_params_layer n_qubits p l :
  circuit_params (layer_gates n_qubits p l) = layer_params n_qubits p l.
Proof.
  unfold layer_gates, ry_gates, cnot_gates. rewrite circuit_params_app.
  rewrite (circuit_params_fmap_None (λ j, X _ _)) by done.
  rewrite app_nil_r. by apply circuit_params_fmap_Some.
Qed.

Lemma circuit_params_ansatz n_qubits layers prefix :
  circuit_params (GenerateAnsatzCircuit n_qubits layers prefix)
  = concat (layer_params n_qubits (param_prefix prefix) <$> seqZ 0 layers).
Proof.
  rewrite GenerateAnsatzCircuit_layers, circuit_params_concat.
  rewrite <- list_fmap_compose. f_equal. apply list_fmap_ext.
  intros _ l _. apply circuit_params_layer.
Qed.

Lemma circuit_params_block n_qubits layers w :
  circuit_params (qe_block n_qubits layers w)
  = block_encoder_params n_qubits w ++ block_ansatz_params n_qubits layers w.
Proof.
  unfold qe_block. rewrite circuit_params_app, circuit_params_no_grad.
  rewrite circuit_params_encoder, circuit_params_ansatz.
  by rewrite <- list_fmap_compose.
Qed.

(** The parameters of the circuit of [QEmbedding]: the Hadamard gates have
    none, and each block brings those of its encoder and of its ansatz. *)
Lemma circuit_params_QEmbedding num_embedding embedding_dim window layers :
  1 ≤ num_embedding →
  ∃ circ, QEmbedding num_embedding embedding_dim window layers = Some circ
    ∧ circuit_params circ
      = concat ((λ w, block_encoder_params (Z.log2_up num_embedding) w
                      ++ block_ansatz_params (Z.log2_up num_embedding) layers w)
                <$> seqZ 0 (2 * window)).
Proof.
  intros Hne. eexists. split.
  - unfold QEmbedding, ceil_log2, range.
    replace (0 <? num_embedding) with true by lia. simpl.
    by rewrite qe_loop_circ, Z.sub_0_r.
  - simpl. rewrite circuit_params_app, circuit_params_concat.
    unfold UN. rewrite (circuit_params_fmap_None H) by done.
    rewrite app_nil_l, <- list_fmap_compose. f_equal.
    apply list_fmap_ext. intros _ w _. apply circuit_params_block.
Qed.

Lemma filter_concat {A} (P : A → Prop) `{!∀ x, Decision (P x)}
    (ls : list (list A)) :
  filter P (concat ls) = concat (filter P <$> ls).
Proof.
  induction ls as [|l ls IH]; [done|]. simpl. by rewrite filter_app, IH.
Qed.

Lemma length_concat_fmap {A B} (f : A → list B) (k : nat) (l : list A) :
  (∀ x, length (f x) = k) → length (concat (f <$> l)) = (length l * k)%nat.
Proof.
  intros Hf. induction l as [|x l IH]; [done|].
  rewrite fmap_cons. cbn [concat length]. rewrite length_app, Hf, IH. lia.
Qed.

Lemma length_block_ansatz_params n_qubits layers w :
  length (block_ansatz_params n_qubits layers w)
  = (Z.to_nat layers * Z.to_nat n_qubits)%nat.
Proof.
  unfold block_ansatz_params.
  rewrite (length_concat_fmap _ (Z.to_nat n_qubits)).
  - by rewrite length_seqZ.
  - intros l. unfold layer_params. by rewrite length_fmap, length_seqZ.
Qed.

Lemma block_encoder_params_flags n_qubits w :
  Forall (λ p, encoder p = true ∧ requires_grad p = false)
         (block_encoder_params n_qubits w).
Proof. apply Forall_fmap, Forall_forall. by intros i _. Qed.

Lemma block_ansatz_params_flags n_qubits layers w :
  Forall (λ p, encoder p = false ∧ requires_grad p = true)
         (block_ansatz_params n_qubits layers w).
Proof.
  apply Forall_concat, Forall_fmap, Forall_forall. intros l _.
  apply Forall_fmap, Forall_forall. by intros i _.
Qed.
End Params.

Section ParamCounts.

Lemma encoder_params_blocks (n layers : Z) (ws : list Z) :
  filter (λ p, encoder p = true)
    (concat ((λ w, block_encoder_params n w
                   ++ block_ansatz_params n layers w) <$> ws))
  = concat (block_encoder_params n <$> ws).
Proof.
  rewrite filter_concat, <- list_fmap_compose. f_equal.
  apply list_fmap_ext. intros _ w _. simpl. rewrite filter_app.
  rewrite filter_all, filter_none, app_nil_r; [done|..].
  - eapply Forall_impl; [apply block_ansatz_params_flags|].
    intros p [Hp _]. by rewrite Hp.
  - eapply Forall_impl; [apply block_encoder_params_flags|]. by intros p [? _].
Qed.

Lemma trainable_params_blocks (n layers : Z) (ws : list Z) :
  filter (λ p, requires_grad p = true)
    (concat ((λ w, block_encoder_params n w
                   ++ block_ansatz_params n layers w) <$> ws))
  = concat (block_ansatz_params n layers <$> ws).
Proof.
  rewrite filter_concat, <- list_fmap_compose. f_equal.
  apply list_fmap_ext. intros _ w _. simpl. rewrite filter_app.
  rewrite filter_none, filter_all; [done|..].
  - eapply Forall_impl; [apply block_ansatz_params_flags|]. by intros p [_ ?].
  - eapply Forall_impl; [apply block_encoder_params_flags|].
    intros p [_ Hp]. by rewrite Hp.
Qed.

Lemma QEmbedding_params num_embedding embedding_dim window layers :
  1 ≤ num_embedding →
  ∃ circ, QEmbedding num_embedding embedding_dim window layers = Some circ
    ∧ encoder_params circ
      = concat (block_encoder_params (Z.log2_up num_embedding)
                <$> seqZ 0 (2 * window))
    ∧ trainable_params circ
      = concat (block_ansatz_params (Z.log2_up num_embedding) layers
                <$> seqZ 0 (2 * window)).
Proof.
  intros Hne.
  destruct (circuit_params_QEmbedding num_embedding embedding_dim window
              layers Hne) as (circ & Hc & Hp).
  exists circ. split; [done|]. unfold encoder_params, trainable_params.
  rewrite Hp. split; [apply encoder_params_blocks|apply trainable_params_blocks].
Qed.

Lemma with_underscore_idemp prefix :
  with_underscore (with_underscore prefix) = with_underscore prefix.
Proof.
  rewrite !with_underscore_prefix.
  destruct (decide (prefix ≠ [] ∧ last prefix ≠ Some "_"%char)) as [Hp|Hp].
  - assert (Heq : param_prefix prefix = prefix ++ ["_"%char])
      by (unfold param_prefix; by rewrite decide_True).
    rewrite Heq. unfold param_prefix. rewrite decide_False; [done|].
    intros [_ Hlast]. apply Hlast, last_snoc.
  - assert (Heq : param_prefix prefix = prefix)
      by (unfold param_prefix; by rewrite decide_False).
    by rewrite !Heq.
Qed.
End ParamCounts.

(** For [num_embedding] from 1 to [2^31], where the float logarithm of
    the code gives the exact [n = ceil(log2(num_embedding))], the circuit
    of [QEmbedding] has [2 * window * n] encoder parameters, none of them
    trainable, and [2 * window * layers * n] trainable parameters, none of
    them of the encoder. *)
Theorem QEmbedding_parameter_counts
    (num_embedding embedding_dim window layers : Z) :
  1 ≤ num_embedding ≤ 2 ^ 31 → 0 ≤ window → 0 ≤ layers →
  ∃ circ, QEmbedding num_embedding embedding_dim window layers = Some circ
    ∧ Z.of_nat (length (encoder_params circ))
      = 2 * window * Z.log2_up num_embedding
    ∧ Forall (λ p, requires_grad p = false) (encoder_params circ)
    ∧ Z.of_nat (length (trainable_params circ))
      = 2 * window * layers * Z.log2_up num_embedding
    ∧ Forall (λ p, encoder p = false) (trainable_params circ).
Proof.
  intros [Hne _] Hw Hl.
  destruct (QEmbedding_params num_embedding embedding_dim window layers Hne)
    as (circ & Hc & He & Ht).
  pose proof (Z.log2_up_nonneg num_embedding) as Hn.
  exists circ. rewrite He, Ht. split; [done|]. split; [|split; [|split]].
  - rewrite (length_concat_fmap _ (Z.to_nat (Z.log2_up num_embedding))).
    + rewrite length_seqZ. lia.
    + intros w. unfold block_encoder_params.
      by rewrite length_fmap, length_seqZ.
  - apply Forall_concat, Forall_fmap, Forall_forall. intros w _.
    eapply Forall_impl; [apply block_encoder_params_flags|]. by intros p [_ ?].
  - rewrite (length_concat_fmap _
               (Z.to_nat layers * Z.to_nat (Z.log2_up num_embedding))).
    + rewrite length_seqZ. lia.
    + intros w. apply length_block_ansatz_params.
  - apply Forall_concat, Forall_fmap, Forall_forall. intros w _.
    eapply Forall_impl; [apply block_ansatz_params_flags|]. by intros p [? _].
Qed.

Lemma QEmbedding_parameter_counts_witness :
  1 ≤ 5 ≤ 2 ^ 31 ∧ 0 ≤ 2 ∧ 0 ≤ 3 ∧ Z.log2_up 5 = 3
  ∧ ∃ circ, QEmbedding 5 10 2 3 = Some circ
    ∧ Z.of_nat (length (encoder_params circ)) = 2 * 2 * Z.log2_up 5
    ∧ Forall (λ p, requires_grad p = false) (encoder_params circ)
    ∧ Z.of_nat (length (trainable_params circ)) = 2 * 2 * 3 * Z.log2_up 5
    ∧ Forall (λ p, encoder p = false) (trainable_params circ).
Proof.
  do 3 (split; [lia|]). split; [done|].
  apply (QEmbedding_parameter_counts 5 10 2 3); lia.
Defined.

(** The rows of the training data fit the encoder of the embedding layer:
    for a corpus of at least two different words, a row has as many
    angles as the circuit of [QEmbedding(len(word_dict), ...)] has
    encoder parameters. *)
Theorem rows_fit_encoder (corpus : str) (embedding_dim window layers : Z) :
  0 ≤ window → (2 ≤ length (remove_dups (split corpus)))%nat →
  ∃ d s x y circ,
    GenerateWordDictAndSample corpus window = Some (d, s)
    ∧ GenerateTrainData s d = Some (x, y)
    ∧ QEmbedding (Z.of_nat (size d)) embedding_dim window layers = Some circ
    ∧ Forall (λ row, length row = length (encoder_params circ)) x.
Proof.
  intros Hw Hdist.
  destruct (corpus_train_data_rows corpus window Hw)
    as (d & s & x & y & Hg & Ht & _ & _ & Hrows & _).
  { intros Hnil. rewrite Hnil in Hdist. simpl in Hdist. lia. }
  pose proof (GenerateWordDictAndSample_dict _ _ _ _ Hg) as Hd.
  assert (Hsize : (2 ≤ size d)%nat) by (by rewrite (wd_size _ _ Hd)).
  destruct (QEmbedding_params (Z.of_nat (size d)) embedding_dim window layers)
    as (circ & Hc & Henc & _); [lia|].
  exists d, s, x, y, circ. do 3 (split; [done|]).
  eapply Forall_impl; [done|]. intros row Hrow. simpl in Hrow.
  rewrite Henc.
  rewrite (length_concat_fmap _ (Z.to_nat (Z.log2_up (Z.of_nat (size d))))).
  - rewrite length_seqZ.
    assert (Hn : 0 < Z.log2_up (Z.of_nat (size d))).
    { apply Z.log2_up_pos. clear -Hsize. lia. }
    apply Nat2Z.inj.
    rewrite Hrow, Nat2Z.inj_mul, !Z2Nat.id by (clear -Hw Hn; lia).
    by rewrite Z.max_r by (clear -Hn; lia).
  - intros w. unfold block_encoder_params.
    by rewrite length_fmap, length_seqZ.
Qed.

Lemma rows_fit_encoder_witness :
  0 ≤ 2
  ∧ (2 ≤ length (remove_dups
                   (split (lit "I love natural language processing"))))%nat
  ∧ ∃ d s x y circ,
    GenerateWordDictAndSample (lit "I love natural language processing") 2
    = Some (d, s)
    ∧ GenerateTrainData s d = Some (x, y)
    ∧ QEmbedding (Z.of_nat (size d)) 10 2 3 = Some circ
    ∧ Forall (λ row, length row = length (encoder_params circ)) x.
Proof.
  split; [lia|]. split; [vm_compute; lia|].
  apply (rows_fit_encoder (lit "I love natural language processing") 10 2 3);
    [lia|vm_compute; lia].
Defined.

(** The prefix is normalised once: a prefix and the same prefix with the
    ['_'] that the functions append give the same circuits, so that the
    prefixes ['e'] and ['e_'] name the same parameters. *)
Theorem prefix_normalised (n_qubits layers : Z) (prefix : str) :
  GenerateEncoderCircuit n_qubits (with_underscore prefix)
  = GenerateEncoderCircuit n_qubits prefix
  ∧ GenerateAnsatzCircuit n_qubits layers (with_underscore prefix)
    = GenerateAnsatzCircuit n_qubits layers prefix.
Proof.
  unfold GenerateEncoderCircuit, GenerateAnsatzCircuit.
  by rewrite with_underscore_idemp.
Qed.

(** ** The names of the parameters *)

Section Names.

Lemma string_of_uint_numeral d :
  Forall (λ c, numeral_char c = true) (lit (NilEmpty.string_of_uint d)).
Proof. induction d; simpl; by constructor. Qed.

Lemma str_of_int_numeral z : Forall (λ c, numeral_char c = true) (str_of_int z).
Proof.
  unfold str_of_int. destruct (Z.to_int z) as [d|d]; simpl.
  - apply string_of_uint_numeral.
  - constructor; [done|]. apply string_of_uint_numeral.
Qed.

(** No numeral is the empty string. *)
Lemma str_of_int_nonempty z : str_of_int z ≠ [].
Proof.
  intros Hz. assert (Heq : str_of_int z = str_of_int (Z.of_int (Decimal.Pos Decimal.Nil))).
  2:{ apply (inj str_of_int) in Heq. by rewrite Heq in Hz. }
  unfold str_of_int in Hz. apply (lit_inj _ "") in Hz.
  apply (f_equal NilEmpty.int_of_string) in Hz.
  rewrite NilEmpty.isi in Hz. simpl in Hz. injection Hz as Hz.
  apply (f_equal Z.of_int) in Hz. rewrite DecimalZ.of_to in Hz.
  by rewrite Hz.
Qed.

Lemma str_of_int_no_underscore z : Forall (λ c, c ≠ "_"%char) (str_of_int z).
Proof.
  eapply Forall_impl; [apply str_of_int_numeral|]. by intros c Hc ->.
Qed.

(** Two strings cut at a separator that neither holds before it. *)
Lemma app_sep_inj (sep : ascii) (a a' r r' : str) :
  Forall (λ c, c ≠ sep) a → Forall (λ c, c ≠ sep) a' →
  a ++ sep :: r = a' ++ sep :: r' → a = a' ∧ r = r'.
Proof.
  intros Ha. revert a'. induction Ha as [|c a Hc Ha IH]; intros a' Ha' Heq.
  - destruct Ha' as [|c' a' Hc' Ha']; simplify_eq/=; done.
  - destruct Ha' as [|c' a' Hc' Ha']; simplify_eq/=.
    destruct (IH a' Ha') as [-> ->]; done.
Qed.

Lemma numbered_inj (z z' : Z) (r r' : str) :
  str_of_int z ++ "_"%char :: r = str_of_int z' ++ "_"%char :: r' →
  z = z' ∧ r = r'.
Proof.
  intros Heq. apply app_sep_inj in Heq as [Hz ->];
    [|apply str_of_int_no_underscore..].
  by apply (inj str_of_int) in Hz as ->.
Qed.

(** A prefix that ends in a numeral gets the ['_']. *)
Lemma param_prefix_numbered (p : str) (z : Z) :
  param_prefix (p ++ str_of_int z) = p ++ str_of_int z ++ lit "_".
Proof.
  unfold param_prefix.
  pose proof (str_of_int_nonempty z) as Hne.
  pose proof (str_of_int_no_underscore z) as Hall.
  destruct (last (str_of_int z)) as [c|] eqn:Hl; [|by apply last_None in Hl].
  rewrite decide_True; [by rewrite <- app_assoc|]. split.
  - intros [_ ?]%app_eq_nil. done.
  - rewrite last_app, Hl. intros [= ->].
    apply last_Some in Hl as [t Ht]. rewrite Ht in Hall.
    by apply Forall_app in Hall as [_ [? _]%Forall_cons].
Qed.

Lemma elem_of_concat_fmap {A B} (f : A → list B) (l : list A) y :
  y ∈ concat (f <$> l) ↔ ∃ x, x ∈ l ∧ y ∈ f x.
Proof.
  induction l as [|x l IH].
  - simpl. split; [by intros ?%elem_of_nil|].
    by intros (x & ?%elem_of_nil & _).
  - rewrite fmap_cons. cbn [concat]. rewrite elem_of_app, IH. split.
    + intros [Hy|(x' & Hx' & Hy)]; [exists x|exists x']; split;
        [left|done|by right|done].
    + intros (x' & [->|Hx']%elem_of_cons & Hy); [by left|right; by exists x'].
Qed.

Lemma NoDup_concat_fmap {A B} (f : A → list B) (l : list A) :
  NoDup l → (∀ x, x ∈ l → NoDup (f x)) →
  (∀ x1 x2 y, x1 ∈ l → x2 ∈ l → y ∈ f x1 → y ∈ f x2 → x1 = x2) →
  NoDup (concat (f <$> l)).
Proof.
  induction 1 as [|x l Hx Hl IH]; intros Hf Hdisj; [constructor|].
  rewrite fmap_cons. cbn [concat]. apply NoDup_app. split; [|split].
  - apply Hf. left.
  - intros y Hy (x' & Hx' & Hy')%elem_of_concat_fmap.
    apply Hx. rewrite (Hdisj x x' y); [done|left|by right|done..].
  - apply IH.
    + intros x' Hx'. apply Hf. by right.
    + intros x1 x2 y H1 H2. apply Hdisj; by right.
Qed.

Lemma fmap_concat {A B} (f : A → B) (ls : list (list A)) :
  f <$> concat ls = concat ((λ l : list A, f <$> l) <$> ls).
Proof.
  induction ls as [|l ls IH]; [done|]. simpl. by rewrite fmap_app, IH.
Qed.

(** The names of the parameters of a layer, and of an ansatz. *)
Lemma layer_names n_qubits p l :
  pname <$> layer_params n_qubits p l
  = (λ i, p ++ str_of_int l ++ lit "_" ++ str_of_int i) <$> seqZ 0 n_qubits.
Proof. unfold layer_params. by rewrite <- list_fmap_compose. Qed.

Lemma NoDup_layer_names n_qubits p l :
  NoDup (pname <$> layer_params n_qubits p l).
Proof.
  rewrite layer_names. apply NoDup_fmap_2_strong; [|apply NoDup_seqZ].
  intros i i' _ _ Heq. apply app_inv_head in Heq.
  by apply numbered_inj in Heq as [_ ?%(inj str_of_int)].
Qed.

Lemma NoDup_ansatz_names n_qubits layers p :
  NoDup (pname <$> concat (layer_params n_qubits p <$> seqZ 0 layers)).
Proof.
  rewrite fmap_concat, <- list_fmap_compose.
  apply NoDup_concat_fmap; [apply NoDup_seqZ|..].
  - intros l _. apply NoDup_layer_names.
  - intros l l' y _ _. simpl. rewrite !layer_names.
    intros (i & -> & _)%list_elem_of_fmap (i' & Heq & _)%list_elem_of_fmap.
    apply app_inv_head in Heq. by apply numbered_inj in Heq as [? _].
Qed.

Lemma NoDup_encoder_names n_qubits (p : str) (e g : bool) :
  NoDup (pname <$> ((λ i, {| pname := p ++ str_of_int i; encoder := e;
                             requires_grad := g |}) <$> seqZ 0 n_qubits)).
Proof.
  rewrite <- list_fmap_compose.
  apply NoDup_fmap_2_strong; [|apply NoDup_seqZ].
  intros i i' _ _ Heq. simpl in Heq. apply app_inv_head in Heq.
  by apply (inj str_of_int).
Qed.
End Names.

(** The parameters of an encoder circuit have different names, whatever
    the prefix. *)
Theorem encoder_names_distinct (n_qubits : Z) (prefix : str) :
  NoDup (params_name (GenerateEncoderCircuit n_qubits prefix)).
Proof.
  rewrite params_name_circuit_params, circuit_params_encoder.
  apply NoDup_encoder_names.
Qed.

(** The parameters of an ansatz circuit have different names, whatever the
    prefix: the layer and the qubit can be read back from a name. *)
Theorem ansatz_names_distinct (n_qubits layers : Z) (prefix : str) :
  NoDup (params_name (GenerateAnsatzCircuit n_qubits layers prefix)).
Proof.
  rewrite params_name_circuit_params, circuit_params_ansatz.
  apply NoDup_ansatz_names.
Qed.

Section BlockNames.

Lemma block_encoder_name n_qubits w y :
  y ∈ pname <$> block_encoder_params n_qubits w →
  ∃ r, y = lit "Encoder_" ++ str_of_int w ++ "_"%char :: r.
Proof.
  unfold block_encoder_params. rewrite <- list_fmap_compose.
  intros (i & -> & _)%list_elem_of_fmap. unfold compose. cbn [pname].
  rewrite param_prefix_numbered. exists (str_of_int i).
  by rewrite <- !app_assoc.
Qed.

Lemma block_ansatz_name n_qubits layers w y :
  y ∈ pname <$> block_ansatz_params n_qubits layers w →
  ∃ r, y = lit "Ansatz_" ++ str_of_int w ++ "_"%char :: r.
Proof.
  unfold block_ansatz_params. rewrite fmap_concat, <- list_fmap_compose.
  intros (l & _ & Hy)%elem_of_concat_fmap. unfold compose in Hy.
  rewrite layer_names in Hy. apply list_elem_of_fmap in Hy as (i & -> & _).
  rewrite param_prefix_numbered. eexists.
  by rewrite <- !app_assoc.
Qed.

Lemma NoDup_block_names n_qubits layers w :
  NoDup (pname <$> (block_encoder_params n_qubits w
                    ++ block_ansatz_params n_qubits layers w)).
Proof.
  rewrite fmap_app. apply NoDup_app. split; [|split].
  - apply NoDup_encoder_names.
  - intros y (r & ->)%block_encoder_name (r' & Heq)%block_ansatz_name.
    by simplify_eq/=.
  - apply NoDup_ansatz_names.
Qed.

Lemma block_names_block n_qubits layers w w' y :
  y ∈ pname <$> (block_encoder_params n_qubits w
                 ++ block_ansatz_params n_qubits layers w) →
  y ∈ pname <$> (block_encoder_params n_qubits w'
                 ++ block_ansatz_params n_qubits layers w') →
  w = w'.
Proof.
  rewrite !fmap_app, !elem_of_app.
  intros [(r & ->)%block_encoder_name|(r & ->)%block_ansatz_name]
         [(r' & Heq)%block_encoder_name|(r' & Heq)%block_ansatz_name];
    try (by simplify_eq/=).
  - apply app_inv_head in Heq. by apply numbered_inj in Heq as [? _].
  - apply app_inv_head in Heq. by apply numbered_inj in Heq as [? _].
Qed.
End BlockNames.

(** All the parameters of the circuit of [QEmbedding] have different
    names: the block, the layer and the qubit can be read back from a
    name, and an encoder is never named as an ansatz. *)
Theorem QEmbedding_names_distinct
    (num_embedding embedding_dim window layers : Z) circ :
  QEmbedding num_embedding embedding_dim window layers = Some circ →
  NoDup (params_name circ).
Proof.
  intros Hq.
  assert (Hne : 1 ≤ num_embedding).
  { unfold QEmbedding, ceil_log2 in Hq.
    destruct (Z.ltb_spec 0 num_embedding); [lia|done]. }
  destruct (circuit_params_QEmbedding num_embedding embedding_dim window
              layers Hne) as (circ' & Hq' & Hp).
  rewrite Hq in Hq'. injection Hq' as <-.
  rewrite params_name_circuit_params, Hp, fmap_concat, <- list_fmap_compose.
  apply NoDup_concat_fmap; [apply NoDup_seqZ|..].
  - intros w _. apply NoDup_block_names.
  - intros w w' y _ _. apply block_names_block.
Qed.

Lemma QEmbedding_names_distinct_witness :
  ∃ circ, QEmbedding 5 10 2 3 = Some circ
    ∧ length (params_name circ) = 48%nat
    ∧ NoDup (params_name circ).
Proof.
  destruct (QEmbedding 5 10 2 3) as [circ|] eqn:Hq; [|by vm_compute in Hq].
  exists circ. split; [done|]. split.
  - vm_compute in Hq. by injection Hq as <-.
  - exact (QEmbedding_names_distinct 5 10 2 3 circ Hq).
Defined.

(** ** More on the measured Hamiltonians *)

Section HamiltonianRange.

Lemma elem_of_ham_qubits i j :
  0 ≤ i → j ∈ ham_qubits i ↔ Z.testbit (i + 1) (Z.of_nat j) = true.
Proof. intros Hi. by destruct (ham_qubits_set_bits i Hi) as [_ ?]. Qed.

Lemma sum_pow2_ham_qubits i : 0 ≤ i → sum_pow2 (ham_qubits i) = i + 1.
Proof.
  intros Hi. unfold ham_qubits.
  rewrite sum_pow2_true_positions, decode_lsb_bits by lia. simpl. lia.
Qed.

Lemma ham_qubits_in_range (dims n_qubits : Z) :
  0 ≤ dims → 0 ≤ n_qubits →
  (∀ i j, 0 ≤ i < dims → j ∈ ham_qubits i → Z.of_nat j < n_qubits)
  ↔ dims < 2 ^ n_qubits.
Proof.
  intros Hd Hn. split.
  - intros Hall. destruct (decide (dims < 2 ^ n_qubits)) as [|Hge]; [done|].
    assert (Hpow : 0 < 2 ^ n_qubits) by (apply Z.pow_pos_nonneg; lia).
    specialize (Hall (2 ^ n_qubits - 1) (Z.to_nat n_qubits) ltac:(lia)).
    rewrite Z2Nat.id in Hall by done.
    assert (Hin : Z.to_nat n_qubits ∈ ham_qubits (2 ^ n_qubits - 1)).
    { apply elem_of_ham_qubits; [lia|].
      replace (2 ^ n_qubits - 1 + 1) with (2 ^ n_qubits) by lia.
      rewrite Z2Nat.id, Z.pow2_bits_eqb by done. by apply Z.eqb_eq. }
    specialize (Hall Hin). lia.
  - intros Hlt i j Hi Hj. apply elem_of_ham_qubits in Hj; [|lia].
    destruct (decide (Z.of_nat j < n_qubits)) as [|Hge]; [done|].
    rewrite Z.bits_above_log2 in Hj; [done|lia|].
    assert (Z.log2 (i + 1) < n_qubits); [|lia].
    apply Z.log2_lt_pow2; lia.
Qed.
End HamiltonianRange.

(** The keys of [GenerateEmbeddingHamiltonian(dims, n_qubits)] name only
    qubits of the circuit, those below [n_qubits], exactly when
    [dims < 2^n_qubits]: whatever list of qubits a key of the returned
    mapping is the space-joined list of ['Z' + str(j)] of, all of them are
    below [n_qubits]. *)
Theorem hamiltonian_qubits_in_range (dims n_qubits : Z) :
  0 ≤ dims → 0 ≤ n_qubits →
  (∀ key js,
     is_Some (GenerateEmbeddingHamiltonian dims n_qubits !! key) →
     key = join_space (ham_term <$> js) →
     Forall (λ j, Z.of_nat j < n_qubits) js)
  ↔ dims < 2 ^ n_qubits.
Proof.
  intros Hd Hn. rewrite <- (ham_qubits_in_range dims n_qubits Hd Hn). split.
  - intros Hall i j Hi Hj.
    assert (Hkey : is_Some (GenerateEmbeddingHamiltonian dims n_qubits
                              !! ham_key i)).
    { rewrite GenerateEmbeddingHamiltonian_lookup, decide_True; [done|].
      apply list_elem_of_fmap_2, elem_of_seqZ. lia. }
    specialize (Hall (ham_key i) (ham_qubits i) Hkey
                  (ham_key_join i ltac:(lia))).
    by eapply Forall_forall in Hall.
  - intros Hall key js Hkey ->.
    rewrite GenerateEmbeddingHamiltonian_lookup in Hkey.
    destruct (decide _) as [Hin|]; [|by destruct Hkey].
    apply list_elem_of_fmap in Hin as (i & Heq & Hi%elem_of_seqZ).
    rewrite ham_key_join in Heq by lia. apply join_terms_inj in Heq as ->.
    apply Forall_forall. intros j Hj. apply (Hall i); [lia|done].
Qed.

Lemma hamiltonian_qubits_in_range_witness :
  0 ≤ 5 ∧ 0 ≤ 3 ∧ 5 < 2 ^ 3
  ∧ ∀ key js,
      is_Some (GenerateEmbeddingHamiltonian 5 3 !! key) →
      key = join_space (ham_term <$> js) →
      Forall (λ j, Z.of_nat j < 3) js.
Proof.
  split; [lia|]. split; [lia|]. split; [done|].
  by apply (hamiltonian_qubits_in_range 5 3).
Defined.

(** More dimensions keep the entries of fewer: the mapping for [dims] is
    part of the mapping for any larger number of dimensions. *)
Theorem hamiltonian_monotone (dims dims' n_qubits n_qubits' : Z) :
  dims ≤ dims' →
  GenerateEmbeddingHamiltonian dims n_qubits
  ⊆ GenerateEmbeddingHamiltonian dims' n_qubits'.
Proof.
  intros Hle. apply map_subseteq_spec. intros k v.
  rewrite !GenerateEmbeddingHamiltonian_lookup.
  destruct (decide (k ∈ ham_key <$> seqZ 0 dims)) as [Hin|]; [|done].
  intros <-. rewrite decide_True; [done|].
  apply list_elem_of_fmap in Hin as (i & -> & Hi%elem_of_seqZ).
  apply list_elem_of_fmap_2, elem_of_seqZ. lia.
Qed.

Lemma hamiltonian_monotone_witness :
  3 ≤ 5
  ∧ GenerateEmbeddingHamiltonian 3 2 ⊆ GenerateEmbeddingHamiltonian 5 4.
Proof. split; [lia|]. apply (hamiltonian_monotone 3 5 2 4). lia. Defined.

(** The index can be read back from its key: whatever list of qubits
    gives the key of the index [i], the powers of two of those qubits add
    up to [i + 1]. *)
Theorem hamiltonian_key_roundtrip (i : Z) (js : list nat) :
  0 ≤ i → ham_key i = join_space (ham_term <$> js) →
  sum_pow2 js = i + 1.
Proof.
  intros Hi Hkey. rewrite ham_key_join in Hkey by done.
  apply join_terms_inj in Hkey as <-. by apply sum_pow2_ham_qubits.
Qed.

Lemma hamiltonian_key_roundtrip_witness :
  0 ≤ 4 ∧ ham_key 4 = lit "Z0 Z2"
  ∧ join_space (ham_term <$> [0; 2]%nat) = lit "Z0 Z2"
  ∧ sum_pow2 [0; 2]%nat = 4 + 1.
Proof.
  split; [lia|]. do 2 (split; [done|]).
  by apply (hamiltonian_key_roundtrip 4 [0; 2]%nat).
Defined.

(** ** The values of the encoder *)

Section EncoderValues.

Lemma foldl_reverse {A B} (f : B → A → B) (l : list A) (b : B) :
  foldl f b l = foldr (λ x b, f b x) b (reverse l).
Proof.
  revert b. induction l as [|x l IH]; intros b; [done|].
  by rewrite reverse_cons, foldr_snoc, <- IH.
Qed.

Lemma dict_of_zip_list_to_map {V} (keys : list str) (values : list V) :
  dict_of_zip keys values = list_to_map (reverse (zip keys values)).
Proof. unfold dict_of_zip. by rewrite foldl_reverse. Qed.

(** With keys that differ and enough values, [dict(zip(keys, values))]
    holds each key with the value at its position. *)
Lemma dict_of_zip_lookup {V} (keys : list str) (values : list V) :
  NoDup keys → (length keys ≤ length values)%nat →
  size (dict_of_zip keys values) = length keys
  ∧ ∀ j k v, keys !! j = Some k → values !! j = Some v →
      dict_of_zip keys values !! k = Some v.
Proof.
  intros Hnd Hlen. rewrite dict_of_zip_list_to_map.
  assert (Hfst : NoDup (reverse (zip keys values)).*1).
  { rewrite fmap_reverse, fst_zip by done. by rewrite reverse_Permutation. }
  split.
  - rewrite map_size_list_to_map, length_reverse, length_zip by done. lia.
  - intros j k v Hk Hv. apply elem_of_list_to_map; [done|].
    apply elem_of_reverse, list_elem_of_lookup. exists j.
    apply lookup_zip_with_Some. by exists k, v.
Qed.
End EncoderValues.

(** The values of the encoder carry the [n_qubits] low bits of the label:
    the parameter named [p + str(j)] gets pi if bit [j] of the label is 1
    and 0 if not; the bits of a label from [2^n_qubits] on are dropped
    by [zip]. *)
Theorem encoder_values_bits (n_qubits label : Z) (prefix : str) :
  0 ≤ label → 0 ≤ n_qubits →
  ∃ pr, encoder_values n_qubits label prefix = Some pr
    ∧ size pr = Z.to_nat n_qubits
    ∧ ∀ j, 0 ≤ j < n_qubits →
        pr !! (param_prefix prefix ++ str_of_int j)
        = Some (angle_of_bit (Z.testbit label j)).
Proof.
  intros Hl Hn. unfold encoder_values.
  pose proof (label_bin_lookup label n_qubits) as Hbit.
  rewrite label_bin_bits in Hbit |- * by done.
  set (bs := lsb_bits label ++ _) in *.
  rewrite label_array_bits. simpl.
  rewrite params_name_circuit_params, circuit_params_encoder.
  rewrite <- list_fmap_compose.
  set (names := _ <$> seqZ 0 n_qubits).
  assert (Hbs : (Z.to_nat n_qubits ≤ length bs)%nat).
  { unfold bs. rewrite length_app, length_replicate. lia. }
  destruct (dict_of_zip_lookup names (angle_of_bit <$> bs)) as [Hsize Hlk].
  { unfold names. apply NoDup_fmap_2_strong; [|apply NoDup_seqZ].
    intros i i' _ _ Heq. simpl in Heq. apply app_inv_head in Heq.
    by apply (inj str_of_int). }
  { unfold names. by rewrite !length_fmap, length_seqZ. }
  eexists. split; [done|]. split.
  { rewrite Hsize. unfold names. by rewrite length_fmap, length_seqZ. }
  intros j Hj.
  destruct (lookup_lt_is_Some_2 bs (Z.to_nat j)) as [b Hb]; [lia|].
  apply (Hlk (Z.to_nat j)).
  - unfold names. rewrite list_lookup_fmap, lookup_seqZ_lt by lia.
    simpl. by rewrite Z2Nat.id by lia.
  - rewrite list_lookup_fmap, Hb. simpl. do 2 f_equal.
    specialize (Hbit (Z.to_nat j) (bit_char b) Hl).
    rewrite list_lookup_fmap, Hb, Z2Nat.id in Hbit by lia.
    specialize (Hbit eq_refl). by destruct b, (Z.testbit label j).
Qed.

Lemma encoder_values_bits_witness :
  0 ≤ 2 ∧ 0 ≤ 3
  ∧ encoder_values 3 2 (lit "e")
    = Some {[lit "e_0" := PiTimes 0; lit "e_1" := PiTimes 1;
             lit "e_2" := PiTimes 0]}
  ∧ ∃ pr, encoder_values 3 2 (lit "e") = Some pr
    ∧ size pr = Z.to_nat 3
    ∧ ∀ j, 0 ≤ j < 3 →
        pr !! (param_prefix (lit "e") ++ str_of_int j)
        = Some (angle_of_bit (Z.testbit 2 j)).
Proof.
  split; [lia|]. split; [lia|]. split; [by vm_compute|].
  apply (encoder_values_bits 3 2 (lit "e")); lia.
Defined.

(** ** What the results hold *)

Section Values.

Lemma word_angles_values (d : gmap str nat) n word a :
  word_angles d n word = Some a →
  Forall (λ x, x = PiTimes 0 ∨ x = PiTimes 1) a.
Proof.
  unfold word_angles. destruct (d !! word) as [id|]; simpl; [|done].
  rewrite label_bin_bits, label_array_bits by lia. intros [= <-].
  apply Forall_fmap, Forall_forall. intros [] _; [by right|by left].
Qed.

Lemma sample_data_values (d : gmap str nat) n (smp : sample_t) rd :
  sample_data d n smp = Some rd →
  Forall (λ x, x = PiTimes 0 ∨ x = PiTimes 1) rd.1
  ∧ d !! smp.2 = Some rd.2.
Proof.
  unfold sample_data.
  destruct (mapM _ smp.1) as [rows|] eqn:Hrows; simpl; [|done].
  destruct (d !! smp.2) as [y|]; simpl; [|done]. intros [= <-]. simpl.
  split; [|done]. apply Forall_concat, Forall_lookup. intros i a Ha.
  apply mapM_Some_1 in Hrows.
  destruct (Forall2_lookup_r _ _ _ _ _ Hrows Ha) as (w & _ & Hw).
  by eapply word_angles_values.
Qed.

Lemma layer_gates_qubits n_qubits p l :
  Forall (λ g, Forall (λ q, 0 ≤ q < n_qubits) (gate_qubits g))
         (layer_gates n_qubits p l).
Proof.
  apply Forall_app. split; apply Forall_fmap, Forall_forall;
    intros i [Hi0 Hi]%elem_of_seqZ; simpl.
  - repeat constructor; lia.
  - pose proof (Z.mod_pos_bound l 2 ltac:(lia)).
    assert (l `mod` 2 + 2 * i + 1 < n_qubits)
      by (Z.to_euclidean_division_equations; lia).
    repeat constructor; lia.
Qed.

Lemma qe_block_qubits n_qubits layers w :
  Forall (λ g, Forall (λ q, 0 ≤ q < n_qubits) (gate_qubits g))
         (qe_block n_qubits layers w).
Proof.
  unfold qe_block. apply Forall_app. split.
  - rewrite GenerateEncoderCircuit_gates. unfold no_grad.
    rewrite <- list_fmap_compose. apply Forall_fmap, Forall_forall.
    intros i [Hi0 Hi]%elem_of_seqZ. simpl. repeat constructor; lia.
  - rewrite GenerateAnsatzCircuit_layers.
    apply Forall_concat, Forall_fmap, Forall_forall. intros l _.
    apply layer_gates_qubits.
Qed.
End Values.

(** The training data hold nothing but what the encoding makes. On a
    dictionary whose ids are below [2^31], every entry of a row is the
    angle 0 or the angle pi, every target is the id that the dictionary
    gives to the center word of its sample, and every target is below
    [2^31], so that the cast to [int32] keeps it. *)
Theorem train_data_values (sample : list sample_t)
    (word_dict : gmap str nat) x y :
  int32_ids word_dict →
  GenerateTrainData sample word_dict = Some (x, y) →
  Forall (Forall (λ a, a = PiTimes 0 ∨ a = PiTimes 1)) x
  ∧ Forall2 (λ (smp : sample_t) id, word_dict !! smp.2 = Some id) sample y
  ∧ Forall (λ id, Z.of_nat id < 2 ^ 31) y.
Proof.
  intros Hids Hg.
  apply GenerateTrainData_Some in Hg as (m & rds & _ & Hrds & _ & -> & ->).
  apply mapM_Some_1 in Hrds.
  assert (Hy : Forall2 (λ (smp : sample_t) id, word_dict !! smp.2 = Some id)
                 sample rds.*2).
  { apply Forall2_fmap_r. eapply Forall2_impl; [done|].
    intros smp rd Hsd. by apply sample_data_values in Hsd as [_ ?]. }
  split; [|split; [done|]].
  - apply Forall_fmap, Forall_lookup. intros k rd Hrd.
    destruct (Forall2_lookup_r _ _ _ _ _ Hrds Hrd) as (smp & _ & Hsd).
    by apply sample_data_values in Hsd as [? _].
  - eapply Forall2_Forall_r; [exact Hy|].
    apply Forall_forall. intros smp _ id Hid.
    exact (map_Forall_lookup_1 _ _ _ _ Hids Hid).
Qed.

Lemma train_data_values_witness :
  let d : gmap str nat := {[lit "a" := 0%nat; lit "b" := 1%nat]} in
  int32_ids d
  ∧ GenerateTrainData [([lit "a"; lit "b"], lit "b")] d
    = Some ([[PiTimes 0; PiTimes 1]], [1%nat])
  ∧ Forall (Forall (λ a, a = PiTimes 0 ∨ a = PiTimes 1))
           [[PiTimes 0; PiTimes 1]]
  ∧ Forall2 (λ (smp : sample_t) id, d !! smp.2 = Some id)
            [([lit "a"; lit "b"], lit "b")] [1%nat]
  ∧ Forall (λ id, Z.of_nat id < 2 ^ 31) [1%nat].
Proof.
  intros d.
  assert (Hd : int32_ids d)
    by (by refine (bool_decide_unpack _ _); vm_compute).
  assert (Hg : GenerateTrainData [([lit "a"; lit "b"], lit "b")] d
               = Some ([[PiTimes 0; PiTimes 1]], [1%nat])) by (by vm_compute).
  split; [done|]. split; [done|]. exact (train_data_values _ d _ _ Hd Hg).
Defined.

(** The circuit of [QEmbedding] stays on its [n = ceil(log2(num_embedding))]
    qubits: no gate acts on, or is controlled by, a qubit outside
    [0 .. n-1]. *)
Theorem QEmbedding_qubits_in_range
    (num_embedding embedding_dim window layers : Z) circ :
  QEmbedding num_embedding embedding_dim window layers = Some circ →
  Forall (λ g, Forall (λ q, 0 ≤ q < Z.log2_up num_embedding) (gate_qubits g))
         circ.
Proof.
  unfold QEmbedding, ceil_log2, range.
  destruct (0 <? num_embedding); simpl; [|done]. intros [= <-].
  rewrite qe_loop_circ. simpl. apply Forall_app. split.
  - unfold UN, range. apply Forall_fmap, Forall_forall.
    intros i [Hi0 Hi]%elem_of_seqZ. simpl. repeat constructor; lia.
  - apply Forall_concat, Forall_fmap, Forall_forall. intros w _.
    apply qe_block_qubits.
Qed.

Lemma QEmbedding_qubits_in_range_witness :
  ∃ circ, QEmbedding 5 10 2 3 = Some circ
    ∧ Forall (λ g, Forall (λ q, 0 ≤ q < Z.log2_up 5) (gate_qubits g)) circ.
Proof.
  destruct (QEmbedding 5 10 2 3) as [circ|] eqn:Hq; [|by vm_compute in Hq].
  exists circ. split; [done|].
  exact (QEmbedding_qubits_in_range 5 10 2 3 circ Hq).
Defined.
